(** * A linear Kalman filter with a constant-acceleration model (kalman.py)

    The script builds per-axis kinematic matrices, expands them to three
    axes with [make_nd], and runs a predict/update recursion with a
    Joseph-form covariance update.

    Arrays are modelled as nested lists, the way [np.array] literals are
    written: a 1-D array is a [vector], a 2-D array a [matrix] (a list of
    rows).  Scalars are exact rationals ([Qc]): the development is about the
    arithmetic the script writes down, not about float64 rounding.  The numpy
    operations the script calls ([@], [np.transpose], [np.concatenate],
    [np.zeros_like], [np.eye], [np.linalg.inv]) are given executable
    definitions on these lists; operands are assumed conformable wherever a
    statement needs it, since numpy raises on a shape mismatch. *)

From Stdlib Require Import List Arith Lia Bool QArith Qcanon.
Import ListNotations.

Open Scope Qc_scope.

(** ** Scalars *)

(** The literal [0.5]. *)
Definition half : Qc := 1 / (1 + 1).

(** ** Arrays *)

(** A 1-D array and a 2-D array (a list of rows). *)
Abbreviation vector := (list Qc).
Abbreviation matrix := (list (list Qc)).

(** [A.shape == (r, c)]. *)
Definition is_matrix (r c : nat) (A : matrix) : Prop :=
  length A = r /\ Forall (fun row => length row = c) A.

(** [A.shape[1]], read off the first row. *)
Definition ncols (A : matrix) : nat := length (hd [] A).

(** [A[i][j]]. *)
Definition mget (A : matrix) (i j : nat) : Qc := nth j (nth i A []) 0.

Fixpoint zip_with {X Y Z : Type} (f : X -> Y -> Z) (l1 : list X) (l2 : list Y)
  : list Z :=
  match l1, l2 with
  | x :: l1', y :: l2' => f x y :: zip_with f l1' l2'
  | _, _ => []
  end.

(** Elementwise [+] and [-] on 1-D and 2-D arrays, and scalar [*]. *)
Definition vadd (u v : vector) : vector := zip_with Qcplus u v.
Definition vsub (u v : vector) : vector := zip_with Qcminus u v.
Definition madd (A B : matrix) : matrix := zip_with vadd A B.
Definition msub (A B : matrix) : matrix := zip_with vsub A B.
Definition vscale (s : Qc) (v : vector) : vector := map (Qcmult s) v.
Definition smul (s : Qc) (A : matrix) : matrix := map (vscale s) A.

(** The inner product of two 1-D arrays. *)
Fixpoint dot (u v : vector) : Qc :=
  match u, v with
  | x :: u', y :: v' => x * y + dot u' v'
  | _, _ => 0
  end.

(** [A[:, j]]. *)
Definition col (j : nat) (A : matrix) : vector :=
  map (fun row => nth j row 0) A.

(** [np.transpose(A)] for a 2-D array. *)
Definition transpose (A : matrix) : matrix :=
  map (fun j => col j A) (seq 0 (ncols A)).

(** [A @ v] for a 2-D [A] and a 1-D [v]. *)
Definition matvec (A : matrix) (v : vector) : vector :=
  map (fun row => dot row v) A.

(** [A @ B] for 2-D arrays: entry (i, j) is row i of [A] against column j
    of [B]. *)
Definition matmul (A B : matrix) : matrix :=
  map (fun row => matvec (transpose B) row) A.

(** [np.zeros_like(A)]. *)
Definition zeros_like (A : matrix) : matrix := map (map (fun _ => 0)) A.

(** [np.eye(n, n)]. *)
Definition eye (n : nat) : matrix :=
  map (fun i => map (fun j => if Nat.eqb i j then 1 else 0) (seq 0 n))
    (seq 0 n).

(** [np.concatenate(a, axis)] on a sequence of 2-D arrays: [axis = 0] stacks
    the rows, [axis = 1] joins the arrays row by row.  numpy raises on an
    empty sequence; [make_nd] never passes one. *)
Definition concatenate (a : list matrix) (axis : nat) : matrix :=
  match a with
  | [] => []
  | m :: ms =>
      fold_left
        (fun acc b =>
           if Nat.eqb axis 0 then acc ++ b else zip_with (@app Qc) acc b)
        ms m
  end.

(** ** The script's helpers *)

(** [concat_optional]: drop the [None] entries, then concatenate. *)
Definition concat_optional (a : list (option matrix)) (axis : nat) : matrix :=
  concatenate
    (flat_map (fun i => match i with Some m => [m] | None => [] end) a) axis.

(** [make_nd(gen, ndim)(args)].  [col] and [base] start as [None]; the inner
    loop stacks [ndim] blocks vertically, with [mtx] at position [i] and
    zeros elsewhere, and the outer loop joins the resulting columns of
    blocks side by side. *)
Definition make_nd {X : Type} (gen : X -> matrix) (ndim : nat) (args : X)
  : option matrix :=
  let mtx := gen args in
  fold_left
    (fun base i =>
       let col :=
         fold_left
           (fun col j =>
              if Nat.eqb i j
              then Some (concat_optional [col; Some mtx] 0)
              else Some (concat_optional [col; Some (zeros_like mtx)] 0))
           (seq 0 ndim) None in
       Some (concat_optional [base; col] 1))
    (seq 0 ndim) None.

(** The bodies of the decorated generators: one axis each. *)
Definition get_transition_matrix_axis (delta_t : Qc) : matrix :=
  let t := delta_t in
  [ [1; t; half * t * t];
    [0; 1; t];
    [0; 0; 1] ].

Definition get_control_matrix_axis (delta_t : Qc) : matrix :=
  let t := delta_t in
  [ [t; half * t * t];
    [1; t];
    [0; 1] ].

Definition get_starting_uncertainty_axis (initial_pos_std : Qc) : matrix :=
  let i := initial_pos_std ^ 2 in
  [ [i; 0; 0];
    [0; 0; 0];
    [0; 0; 0] ].

(** The decorated functions: [@make_nd] with its default [ndim=3]. *)
Definition get_transition_matrix (delta_t : Qc) : option matrix :=
  make_nd get_transition_matrix_axis 3 delta_t.

Definition get_control_matrix (delta_t : Qc) : option matrix :=
  make_nd get_control_matrix_axis 3 delta_t.

Definition get_starting_uncertainty (initial_pos_std : Qc) : option matrix :=
  make_nd get_starting_uncertainty_axis 3 initial_pos_std.

(** [accel_std**2 * G @ np.transpose(G)]: [*] and [@] associate to the left. *)
Definition get_process_noise (delta_t accel_std : Qc) : option matrix :=
  match get_control_matrix delta_t with
  | Some G => Some (matmul (smul (accel_std ^ 2) G) (transpose G))
  | None => None
  end.

Definition get_observation_matrix : matrix :=
  [ [1; 0; 0; 0; 0; 0; 0; 0; 0];
    [0; 0; 0; 1; 0; 0; 0; 0; 0];
    [0; 0; 0; 0; 0; 0; 1; 0; 0] ].

Definition get_starting_position (initial_pos : Qc * Qc * Qc) : vector :=
  let '(p0, p1, p2) := initial_pos in
  [p0; 0; 0; p1; 0; 0; p2; 0; 0].

(** ** [np.linalg.inv] *)

(** What the script can raise.  [np.linalg.inv] raises
    [numpy.linalg.LinAlgError] on a singular (or non-square) argument. *)
Inductive exn : Type :=
| LinAlgError.

Inductive result (X : Type) : Type :=
| Ok (x : X)
| Raise (e : exn).
Arguments Ok {X} x.
Arguments Raise {X} e.

(** [r - f * p], entry by entry. *)
Definition row_sub (f : Qc) (p r : vector) : vector :=
  zip_with (fun a b => a - f * b) r p.

(** Clear column [k] of row [r] with the pivot row [p], whose entry [k]
    is 1. *)
Definition eliminate (k : nat) (p r : vector) : vector :=
  row_sub (nth k r 0) p r.

(** The first row with a non-zero entry in column [k], and the other rows. *)
Fixpoint find_pivot (k : nat) (rows : list vector)
  : option (vector * list vector) :=
  match rows with
  | [] => None
  | r :: rs =>
      if Qc_eq_dec (nth k r 0) 0
      then match find_pivot k rs with
           | Some (p, rest) => Some (p, r :: rest)
           | None => None
           end
      else Some (r, rs)
  end.

(** Gauss-Jordan elimination on the rows of [[A | I]]: [done] holds the rows
    whose pivots are in columns [0 .. k-1], [todo] the rows still without a
    pivot.  [None] when some column has no pivot left. *)
Fixpoint gauss_jordan (steps k : nat) (done todo : list vector)
  : option (list vector) :=
  match steps with
  | O => Some done
  | S steps' =>
      match find_pivot k todo with
      | None => None
      | Some (p, rest) =>
          let p' := vscale (/ nth k p 0) p in
          gauss_jordan steps' (S k)
            (map (eliminate k p') done ++ [p'])
            (map (eliminate k p') rest)
      end
  end.

(** [[A | B]]: the rows of [A] followed by the rows of [B]. *)
Definition augment (A B : matrix) : matrix := zip_with (@app Qc) A B.

Definition is_square (A : matrix) : bool :=
  forallb (fun row => Nat.eqb (length row) (length A)) A.

(** [np.linalg.inv(A)]: the inverse in exact arithmetic, or [LinAlgError]. *)
Definition linalg_inv (A : matrix) : result matrix :=
  let n := length A in
  if is_square A
  then match gauss_jordan n 0 [] (augment A (eye n)) with
       | Some rows => Ok (map (skipn n) rows)
       | None => Raise LinAlgError
       end
  else Raise LinAlgError.

(** ** The filter recursion of the main loop *)

(** The running estimate: the script's [x_est] and [p_est]. *)
Record estimate : Type := Estimate { x_est : vector; p_est : matrix }.

(** Lines 106-107: [x_predict] and [p_predict]. *)
Definition predict (F G Q : matrix) (control : vector) (e : estimate)
  : estimate :=
  {| x_est := vadd (matvec F (x_est e)) (matvec G control);
     p_est := madd (matmul (matmul F (p_est e)) (transpose F)) Q |}.

(** [H @ p_predict @ np.transpose(H) + var], the argument of the inversion. *)
Definition innovation_cov (H p_predict var : matrix) : matrix :=
  madd (matmul (matmul H p_predict) (transpose H)) var.

(** Lines 108-111, with [I = np.eye(H.shape[1], H.shape[1])] of line 88.
    The inversion comes first: when it raises, nothing has been assigned. *)
Definition update (H : matrix) (meas : vector) (var : matrix) (pred : estimate)
  : result estimate :=
  let x_predict := x_est pred in
  let p_predict := p_est pred in
  let I := eye (ncols H) in
  match linalg_inv (innovation_cov H p_predict var) with
  | Raise e => Raise e
  | Ok S_inv =>
      let K := matmul (matmul p_predict (transpose H)) S_inv in
      let x_est' :=
        vadd x_predict (matvec K (vsub meas (matvec H x_predict))) in
      let fact := msub I (matmul K H) in
      let p_est' :=
        madd (matmul (matmul fact p_predict) (transpose fact))
             (matmul (matmul K var) (transpose K)) in
      Ok {| x_est := x_est'; p_est := p_est' |}
  end.

(** What the external model hands over in one iteration. *)
Record step_input : Type :=
  StepInput { control : vector; meas : vector; var : matrix }.




(** A filter used call by call, as the specification describes it. *)
Inductive call : Type :=
| Predict (F G Q : matrix) (control : vector)
| Update (H : matrix) (meas : vector) (var : matrix).

Definition apply_call (c : call) (e : estimate) : result estimate :=
  match c with
  | Predict F G Q u => Ok (predict F G Q u e)
  | Update H z R => update H z R e
  end.


(** ** Notions used in the statements *)

(** The sum of [f 0 .. f (n-1)]. *)
Fixpoint sumq (n : nat) (f : nat -> Qc) : Qc :=
  match n with
  | O => 0
  | S k => sumq k f + f k
  end.

Definition symmetric (n : nat) (A : matrix) : Prop :=
  forall i j, (i < n)%nat -> (j < n)%nat -> mget A i j = mget A j i.

(** Positive semi-definite: the quadratic form is nowhere negative. *)
Definition psd (n : nat) (A : matrix) : Prop :=
  forall v : vector, length v = n -> 0 <= dot v (matvec A v).

(** A covariance: the right shape, symmetric, positive semi-definite. *)
Definition covariance (n : nat) (A : matrix) : Prop :=
  is_matrix n n A /\ symmetric n A /\ psd n A.

(** [B] is the two-sided inverse of the n x n matrix [A]. *)
Definition inverse_of (n : nat) (A B : matrix) : Prop :=
  is_matrix n n B /\ matmul A B = eye n /\ matmul B A = eye n.

Definition invertible (n : nat) (A : matrix) : Prop :=
  exists B, inverse_of n A B.

Definition singular (n : nat) (A : matrix) : Prop := ~ invertible n A.

(** The all-zero r x c matrix. *)
Definition zeros (r c : nat) : matrix := repeat (repeat 0 c) r.

(** Every row is orthogonal to [w]. *)
Definition annihilates (rows : list vector) (w : vector) : Prop :=
  Forall (fun r => dot r w = 0) rows.

(** The state of the elimination after [k] pivots, started from the rows
    [M0]: every row has length [L]; the rows annihilate the same vectors as
    [M0]; the first [k] columns of [done] are those of the identity and the
    first [k] columns of [todo] are zero. *)
Definition gj_invariant (L : nat) (M0 : list vector) (k : nat)
  (done todo : list vector) : Prop :=
  (forall r, In r (done ++ todo) -> length r = L) /\
  (forall w, annihilates M0 w <-> annihilates (done ++ todo) w) /\
  length done = k /\
  (forall i j, (i < k)%nat -> (j < k)%nat ->
     mget done i j = if Nat.eqb i j then 1 else 0) /\
  (forall r, In r todo -> forall j, (j < k)%nat -> nth j r 0 = 0).

(** When column [k] has no pivot, this vector is annihilated by every row:
    minus column [k] of [done] on the first [k] places, then 1, then zeros. *)
Definition kernel_vector (L k : nat) (done : list vector) : vector :=
  map (fun j => if Nat.ltb j k then - mget done j k
                else if Nat.eqb j k then 1 else 0) (seq 0 L).

(** What [make_nd] places at block row [j] of block column [i], and the
    whole block column: the closed forms of its two loops. *)
Definition make_nd_block (mtx : matrix) (i j : nat) : matrix :=
  if Nat.eqb i j then mtx else zeros_like mtx.

Definition make_nd_col (mtx : matrix) (ndim i : nat) : matrix :=
  flat_map (make_nd_block mtx i) (seq 0 ndim).

(** Entry (p, q) lies in the [i]-th diagonal block of r x c blocks. *)
Definition in_block (r c i p q : nat) : Prop :=
  (i * r <= p < (i + 1) * r)%nat /\ (i * c <= q < (i + 1) * c)%nat.




(** The gain and the Joseph form, as the specification writes them. *)
Definition kalman_gain (H P S_inv : matrix) : matrix :=
  matmul (matmul P (transpose H)) S_inv.

Definition joseph_form (n : nat) (K H P R : matrix) : matrix :=
  let Phi := msub (eye n) (matmul K H) in
  madd (matmul (matmul Phi P) (transpose Phi))
       (matmul (matmul K R) (transpose K)).

(** ** The scenario of the main program *)

(** A decimal literal. *)
Definition dec (a : Z) (b : positive) : Qc := Q2Qc (a # b).

Definition delta_t_ms : Qc := dec 10 1.
Definition delta_t : Qc := delta_t_ms / dec 1000 1.
Definition accel_var : Qc := dec 2 100.

(** The first pass of the loop from [x_est = get_starting_position((0, 0,
    0.6))] and [p_est = get_starting_uncertainty(0.2)], with the control and
    the measurement handed in. *)
Definition first_iteration (inp : step_input) : option (result estimate) :=
  match get_transition_matrix delta_t, get_control_matrix delta_t,
        get_process_noise delta_t accel_var,
        get_starting_uncertainty (dec 2 10) with
  | Some F, Some G, Some Q, Some p0 =>
      let H := get_observation_matrix in
      let x0 := get_starting_position (0, 0, dec 6 10) in
      Some (update H (meas inp) (var inp)
              (predict F G Q (control inp) {| x_est := x0; p_est := p0 |}))
  | _, _, _, _ => None
  end.

(** An entry of a matrix that a generator may have returned. *)
Definition entry_of (i j : nat) (o : option matrix) : Qc :=
  match o with
  | Some M => mget M i j
  | None => 0
  end.




(** ** Tactics for concrete arrays *)

(** Two array expressions are equal when their entries are equal as
    rationals: unfold the array operations, keep the arithmetic, compare
    entry by entry. *)
Ltac unfold_arrays :=
  cbv - [Qcplus Qcmult Qcminus Qcopp Qcinv Qcdiv Q2Qc half Qcle Qclt].

Ltac split_arrays :=
  repeat match goal with
    | |- Some _ = Some _ => apply f_equal
    | |- Ok _ = Ok _ => apply f_equal
    | |- Estimate _ _ = Estimate _ _ => apply f_equal2
    | |- _ :: _ = _ :: _ => apply f_equal2
    | |- [] = [] => reflexivity
    end.


Ltac array_eq := unfold_arrays; split_arrays; try ring.

(** ** Lists *)

Lemma zip_with_length {X Y Z : Type} (f : X -> Y -> Z) l1 l2 :
  length (zip_with f l1 l2) = Nat.min (length l1) (length l2).
Proof.
  revert l2; induction l1 as [|x l1 IH]; intros [|y l2]; simpl; auto.
Qed.

Lemma nth_zip_with {X Y Z : Type} (f : X -> Y -> Z) l1 l2 i dx dy dz :
  (i < length l1)%nat -> (i < length l2)%nat ->
  nth i (zip_with f l1 l2) dz = f (nth i l1 dx) (nth i l2 dy).
Proof.
  revert l2 i; induction l1 as [|x l1 IH]; intros [|y l2] [|i]; simpl;
    try lia; auto.
  intros; apply IH; lia.
Qed.

Lemma nth_map_lt {X Y : Type} (f : X -> Y) l i dx dy :
  (i < length l)%nat -> nth i (map f l) dy = f (nth i l dx).
Proof.
  revert i; induction l as [|x l IH]; intros [|i]; simpl; try lia; auto.
  intros; apply IH; lia.
Qed.

Lemma nth_ext_len {X : Type} (l1 l2 : list X) d n :
  length l1 = n -> length l2 = n ->
  (forall i, (i < n)%nat -> nth i l1 d = nth i l2 d) -> l1 = l2.
Proof.
  intros H1 H2 H. apply (nth_ext l1 l2 d d); [congruence|].
  intros i Hi; apply H; lia.
Qed.

Lemma Forall_nth_len {X : Type} (P : X -> Prop) (l : list X) d i :
  Forall P l -> (i < length l)%nat -> P (nth i l d).
Proof.
  intros H Hi. rewrite Forall_forall in H. apply H, nth_In, Hi.
Qed.

(** ** Sums *)

Lemma sumq_ext n f g :
  (forall k, (k < n)%nat -> f k = g k) -> sumq n f = sumq n g.
Proof.
  induction n as [|n IH]; simpl; intros H; auto.
  rewrite IH, H by (intros; auto with arith); auto.
Qed.

Lemma sumq_shift n f : sumq (S n) f = f O + sumq n (fun k => f (S k)).
Proof.
  induction n as [|n IH].
  - simpl; ring.
  - change (sumq (S (S n)) f) with (sumq (S n) f + f (S n)).
    rewrite IH. simpl. ring.
Qed.

Lemma sumq_zero n : sumq n (fun _ => 0) = 0.
Proof. induction n as [|n IH]; simpl; [|rewrite IH]; ring. Qed.

Lemma sumq_add n f g :
  sumq n (fun k => f k + g k) = sumq n f + sumq n g.
Proof. induction n as [|n IH]; simpl; [|rewrite IH]; ring. Qed.


Lemma sumq_mul_l n c f : sumq n (fun k => c * f k) = c * sumq n f.
Proof. induction n as [|n IH]; simpl; [|rewrite IH]; ring. Qed.

Lemma sumq_mul_r n c f : sumq n (fun k => f k * c) = sumq n f * c.
Proof. induction n as [|n IH]; simpl; [|rewrite IH]; ring. Qed.

Lemma sumq_swap n m (f : nat -> nat -> Qc) :
  sumq n (fun i => sumq m (fun j => f i j)) =
  sumq m (fun j => sumq n (fun i => f i j)).
Proof.
  induction n as [|n IH]; simpl.
  - symmetry; apply sumq_zero.
  - rewrite IH, <- sumq_add. reflexivity.
Qed.

(** A sum against a unit vector picks one term. *)
Lemma sumq_delta_l n i f :
  (i < n)%nat ->
  sumq n (fun k => (if Nat.eqb i k then 1 else 0) * f k) = f i.
Proof.
  induction n as [|n IH]; simpl; [lia|]. intros Hi.
  destruct (Nat.eqb_spec i n) as [->|Hne].
  - rewrite (sumq_ext n _ (fun _ => 0)), sumq_zero; [ring|].
    intros k Hk. destruct (Nat.eqb_spec n k); [lia|ring].
  - rewrite IH by lia. ring.
Qed.

Lemma sumq_delta_r n i f :
  (i < n)%nat ->
  sumq n (fun k => f k * (if Nat.eqb k i then 1 else 0)) = f i.
Proof.
  intros Hi. rewrite <- (sumq_delta_l n i f Hi).
  apply sumq_ext; intros k _. rewrite (Nat.eqb_sym k i). ring.
Qed.

(** ** Shapes and entries *)

Lemma is_matrix_row r c A i :
  is_matrix r c A -> (i < r)%nat -> length (nth i A []) = c.
Proof.
  intros [Hl Hf] Hi. apply (Forall_nth_len _ A [] i Hf). lia.
Qed.

Lemma is_matrix_ncols r c A : is_matrix r c A -> (0 < r)%nat -> ncols A = c.
Proof.
  intros [Hl Hf] Hr. unfold ncols. destruct A as [|row A]; simpl in *; [lia|].
  inversion Hf; auto.
Qed.

Lemma vec_ext n (u v : vector) :
  length u = n -> length v = n ->
  (forall i, (i < n)%nat -> nth i u 0 = nth i v 0) -> u = v.
Proof. apply nth_ext_len. Qed.

Lemma mat_ext r c A B :
  is_matrix r c A -> is_matrix r c B ->
  (forall i j, (i < r)%nat -> (j < c)%nat -> mget A i j = mget B i j) ->
  A = B.
Proof.
  intros HA HB H. apply (nth_ext_len A B [] r); [apply HA | apply HB |].
  intros i Hi. apply (vec_ext c).
  - apply (is_matrix_row r c A i HA Hi).
  - apply (is_matrix_row r c B i HB Hi).
  - intros j Hj. apply (H i j Hi Hj).
Qed.

Lemma dot_sum n u v :
  length u = n -> length v = n ->
  dot u v = sumq n (fun k => nth k u 0 * nth k v 0).
Proof.
  revert u v; induction n as [|n IH]; intros [|x u] [|y v] Hu Hv;
    try discriminate; auto.
  rewrite sumq_shift. simpl in *. rewrite (IH u v) by lia. reflexivity.
Qed.

Lemma dot_comm u v : dot u v = dot v u.
Proof.
  revert v; induction u as [|x u IH]; intros [|y v]; simpl; auto.
  rewrite IH; ring.
Qed.

Lemma vadd_length n u v :
  length u = n -> length v = n -> length (vadd u v) = n.
Proof. intros; unfold vadd; rewrite zip_with_length; lia. Qed.

Lemma vsub_length n u v :
  length u = n -> length v = n -> length (vsub u v) = n.
Proof. intros; unfold vsub; rewrite zip_with_length; lia. Qed.

Lemma nth_vadd n u v i :
  length u = n -> length v = n -> (i < n)%nat ->
  nth i (vadd u v) 0 = nth i u 0 + nth i v 0.
Proof. intros; unfold vadd; apply nth_zip_with; lia. Qed.

Lemma nth_vsub n u v i :
  length u = n -> length v = n -> (i < n)%nat ->
  nth i (vsub u v) 0 = nth i u 0 - nth i v 0.
Proof. intros; unfold vsub; apply nth_zip_with; lia. Qed.

Lemma matvec_length r A v : length A = r -> length (matvec A v) = r.
Proof. intros; unfold matvec; rewrite length_map; auto. Qed.

Lemma nth_matvec r c A v i :
  is_matrix r c A -> length v = c -> (i < r)%nat ->
  nth i (matvec A v) 0 = sumq c (fun l => mget A i l * nth l v 0).
Proof.
  intros HA Hv Hi. unfold matvec.
  rewrite (nth_map_lt _ A i [] 0) by (destruct HA; lia).
  apply dot_sum; auto. apply (is_matrix_row r c A i HA Hi).
Qed.

Lemma col_length j A : length (col j A) = length A.
Proof. apply length_map. Qed.

Lemma nth_col j A i : (i < length A)%nat -> nth i (col j A) 0 = mget A i j.
Proof.
  intros Hi. unfold col, mget.
  rewrite (nth_map_lt (fun row => nth j row 0) A i [] 0 Hi). reflexivity.
Qed.

Lemma transpose_shape r c A :
  is_matrix r c A -> (0 < r)%nat -> is_matrix c r (transpose A).
Proof.
  intros HA Hr. unfold transpose. rewrite (is_matrix_ncols r c A HA Hr).
  split.
  - rewrite length_map, length_seq; auto.
  - apply Forall_forall. intros x Hx. apply in_map_iff in Hx.
    destruct Hx as [j [<- _]]. rewrite col_length. apply HA.
Qed.

Lemma mget_transpose r c A i j :
  is_matrix r c A -> (0 < r)%nat -> (i < c)%nat -> (j < r)%nat ->
  mget (transpose A) i j = mget A j i.
Proof.
  intros HA Hr Hi Hj. unfold transpose.
  rewrite (is_matrix_ncols r c A HA Hr). unfold mget at 1.
  rewrite (nth_map_lt (fun j0 => col j0 A) (seq 0 c) i O [])
    by (rewrite length_seq; auto).
  rewrite seq_nth by auto. simpl. apply nth_col. destruct HA; lia.
Qed.

Lemma matmul_shape r k c A B :
  is_matrix r k A -> is_matrix k c B -> (0 < k)%nat ->
  is_matrix r c (matmul A B).
Proof.
  intros HA HB Hk. unfold matmul. split.
  - rewrite length_map; apply HA.
  - apply Forall_forall. intros x Hx. apply in_map_iff in Hx.
    destruct Hx as [row [<- _]].
    apply matvec_length. apply (transpose_shape k c B HB Hk).
Qed.

Lemma mget_matmul r k c A B i j :
  is_matrix r k A -> is_matrix k c B -> (0 < k)%nat ->
  (i < r)%nat -> (j < c)%nat ->
  mget (matmul A B) i j = sumq k (fun l => mget A i l * mget B l j).
Proof.
  intros HA HB Hk Hi Hj. unfold matmul. unfold mget at 1.
  rewrite (nth_map_lt (fun row => matvec (transpose B) row) A i [] [])
    by (destruct HA; lia).
  rewrite (nth_matvec c k (transpose B) (nth i A []) j
             (transpose_shape k c B HB Hk)
             (is_matrix_row r k A i HA Hi) Hj).
  apply sumq_ext; intros l Hl.
  rewrite (mget_transpose k c B j l HB Hk Hj Hl). unfold mget. ring.
Qed.

Lemma madd_shape r c A B :
  is_matrix r c A -> is_matrix r c B -> is_matrix r c (madd A B).
Proof.
  intros [HA1 HA2] [HB1 HB2]. unfold madd. split.
  - rewrite zip_with_length; lia.
  - revert r B HA1 HB1 HB2. induction HA2 as [|x A Hx HA IH];
      intros r [|y B] HA1 HB1 HB2; simpl; constructor.
    + inversion HB2; subst. apply vadd_length; auto.
    + inversion HB2; subst. apply (IH (length A)); simpl in *; auto; lia.
Qed.


Lemma mget_madd r c A B i j :
  is_matrix r c A -> is_matrix r c B -> (i < r)%nat -> (j < c)%nat ->
  mget (madd A B) i j = mget A i j + mget B i j.
Proof.
  intros HA HB Hi Hj. unfold madd, mget.
  rewrite (nth_zip_with vadd A B i [] [] []) by (destruct HA, HB; lia).
  apply (nth_vadd c); auto; eapply is_matrix_row; eauto.
Qed.


Lemma smul_shape r c s A : is_matrix r c A -> is_matrix r c (smul s A).
Proof.
  intros [H1 H2]. unfold smul. split.
  - rewrite length_map; auto.
  - apply Forall_forall. intros x Hx. apply in_map_iff in Hx.
    destruct Hx as [row [<- Hin]]. unfold vscale. rewrite length_map.
    rewrite Forall_forall in H2. auto.
Qed.

Lemma mget_smul r c s A i j :
  is_matrix r c A -> (i < r)%nat -> (j < c)%nat ->
  mget (smul s A) i j = s * mget A i j.
Proof.
  intros HA Hi Hj. unfold smul, mget.
  rewrite (nth_map_lt (vscale s) A i [] []) by (destruct HA; lia).
  unfold vscale. apply (nth_map_lt (Qcmult s) (nth i A []) j 0 0).
  rewrite (is_matrix_row r c A i HA Hi). auto.
Qed.

Lemma eye_shape n : is_matrix n n (eye n).
Proof.
  unfold eye. split.
  - rewrite length_map, length_seq; auto.
  - apply Forall_forall. intros x Hx. apply in_map_iff in Hx.
    destruct Hx as [i [<- _]]. rewrite length_map, length_seq; auto.
Qed.

Lemma mget_eye n i j :
  (i < n)%nat -> (j < n)%nat ->
  mget (eye n) i j = if Nat.eqb i j then 1 else 0.
Proof.
  intros Hi Hj. unfold eye, mget.
  rewrite (nth_map_lt
             (fun i0 => map (fun j0 => if Nat.eqb i0 j0 then 1 else 0) (seq 0 n))
             (seq 0 n) i O []) by (rewrite length_seq; auto).
  rewrite (nth_map_lt _ (seq 0 n) j O 0) by (rewrite length_seq; auto).
  rewrite !seq_nth by auto. reflexivity.
Qed.

Lemma zeros_shape r c : is_matrix r c (zeros r c).
Proof.
  unfold zeros. split.
  - apply repeat_length.
  - apply Forall_forall. intros x Hx. apply repeat_spec in Hx. subst.
    apply repeat_length.
Qed.

Lemma mget_zeros r c i j : mget (zeros r c) i j = 0.
Proof.
  unfold zeros, mget.
  destruct (Nat.lt_ge_cases i r) as [Hi|Hi].
  - rewrite (nth_repeat_lt _ _ Hi).
    destruct (Nat.lt_ge_cases j c) as [Hj|Hj].
    + apply nth_repeat_lt; auto.
    + apply nth_overflow. rewrite repeat_length; auto.
  - rewrite (nth_overflow (repeat (repeat 0 c) r) [])
      by (rewrite repeat_length; auto).
    destruct j; reflexivity.
Qed.

(** ** Algebra of the array operations *)

Lemma matmul_assoc a b c d A B C :
  is_matrix a b A -> is_matrix b c B -> is_matrix c d C ->
  (0 < b)%nat -> (0 < c)%nat ->
  matmul (matmul A B) C = matmul A (matmul B C).
Proof.
  intros HA HB HC Hb Hc.
  assert (HAB := matmul_shape a b c A B HA HB Hb).
  assert (HBC := matmul_shape b c d B C HB HC Hc).
  apply (mat_ext a d).
  - apply (matmul_shape a c d); auto.
  - apply (matmul_shape a b d); auto.
  - intros i j Hi Hj.
    rewrite (mget_matmul a c d (matmul A B) C i j HAB HC Hc Hi Hj).
    rewrite (mget_matmul a b d A (matmul B C) i j HA HBC Hb Hi Hj).
    rewrite (sumq_ext c _
               (fun l => sumq b (fun k => mget A i k * mget B k l * mget C l j))).
    2:{ intros l Hl. rewrite (mget_matmul a b c A B i l HA HB Hb Hi Hl).
        symmetry; apply sumq_mul_r. }
    rewrite sumq_swap. apply sumq_ext. intros k Hk.
    rewrite (mget_matmul b c d B C k j HB HC Hc Hk Hj).
    rewrite <- sumq_mul_l. apply sumq_ext; intros; ring.
Qed.

Lemma matvec_matmul r k c A B v :
  is_matrix r k A -> is_matrix k c B -> (0 < k)%nat -> length v = c ->
  matvec (matmul A B) v = matvec A (matvec B v).
Proof.
  intros HA HB Hk Hv.
  assert (HAB := matmul_shape r k c A B HA HB Hk).
  apply (vec_ext r).
  - apply matvec_length, HAB.
  - apply matvec_length, HA.
  - intros i Hi.
    rewrite (nth_matvec r c (matmul A B) v i HAB Hv Hi).
    rewrite (nth_matvec r k A (matvec B v) i HA
               (matvec_length k B v (proj1 HB)) Hi).
    rewrite (sumq_ext c _
               (fun l => sumq k (fun m => mget A i m * mget B m l * nth l v 0))).
    2:{ intros l Hl. rewrite (mget_matmul r k c A B i l HA HB Hk Hi Hl).
        symmetry; apply sumq_mul_r. }
    rewrite sumq_swap. apply sumq_ext. intros m Hm.
    rewrite (nth_matvec k c B v m HB Hv Hm).
    rewrite <- sumq_mul_l. apply sumq_ext; intros; ring.
Qed.

(** The transpose is the adjoint for the inner product. *)
Lemma dot_matvec_adjoint r c A u w :
  is_matrix r c A -> (0 < r)%nat -> length u = r -> length w = c ->
  dot u (matvec A w) = dot (matvec (transpose A) u) w.
Proof.
  intros HA Hr Hu Hw.
  assert (HT := transpose_shape r c A HA Hr).
  rewrite (dot_sum r u (matvec A w) Hu (matvec_length r A w (proj1 HA))).
  rewrite (dot_sum c (matvec (transpose A) u) w
             (matvec_length c _ u (proj1 HT)) Hw).
  rewrite (sumq_ext r _
             (fun k => sumq c (fun l => nth k u 0 * mget A k l * nth l w 0))).
  2:{ intros k Hk. rewrite (nth_matvec r c A w k HA Hw Hk).
      rewrite <- sumq_mul_l. apply sumq_ext; intros; ring. }
  rewrite sumq_swap. apply sumq_ext. intros l Hl.
  rewrite (nth_matvec c r (transpose A) u l HT Hu Hl).
  rewrite <- sumq_mul_r. apply sumq_ext. intros k Hk.
  rewrite (mget_transpose r c A l k HA Hr Hl Hk). ring.
Qed.



Lemma matmul_eye_l r c A : is_matrix r c A -> (0 < r)%nat -> matmul (eye r) A = A.
Proof.
  intros HA Hr. apply (mat_ext r c); auto.
  - apply (matmul_shape r r c); auto using eye_shape.
  - intros i j Hi Hj.
    rewrite (mget_matmul r r c (eye r) A i j (eye_shape r) HA Hr Hi Hj).
    rewrite <- (sumq_delta_l r i (fun l => mget A l j) Hi).
    apply sumq_ext. intros l Hl. rewrite mget_eye by auto. reflexivity.
Qed.

Lemma matmul_eye_r r c A : is_matrix r c A -> (0 < c)%nat -> matmul A (eye c) = A.
Proof.
  intros HA Hc. apply (mat_ext r c); auto.
  - apply (matmul_shape r c c); auto using eye_shape.
  - intros i j Hi Hj.
    rewrite (mget_matmul r c c A (eye c) i j HA (eye_shape c) Hc Hi Hj).
    rewrite <- (sumq_delta_r c j (fun l => mget A i l) Hj).
    apply sumq_ext. intros l Hl. rewrite mget_eye by auto. reflexivity.
Qed.

Lemma matvec_eye n v : length v = n -> matvec (eye n) v = v.
Proof.
  intros Hv. apply (vec_ext n); auto.
  - apply matvec_length, eye_shape.
  - intros i Hi.
    rewrite (nth_matvec n n (eye n) v i (eye_shape n) Hv Hi).
    rewrite <- (sumq_delta_l n i (fun l => nth l v 0) Hi).
    apply sumq_ext. intros l Hl. rewrite mget_eye by auto. reflexivity.
Qed.

(** ** Congruences keep covariances *)

(** The entries of [A @ M @ np.transpose(A)]. *)
Lemma mget_congruence n k A M i j :
  is_matrix n k A -> is_matrix k k M -> (0 < n)%nat -> (0 < k)%nat ->
  (i < n)%nat -> (j < n)%nat ->
  mget (matmul (matmul A M) (transpose A)) i j =
  sumq k (fun a => sumq k (fun b => mget A i a * mget M a b * mget A j b)).
Proof.
  intros HA HM Hn Hk Hi Hj.
  assert (HAM := matmul_shape n k k A M HA HM Hk).
  assert (HT := transpose_shape n k A HA Hn).
  rewrite (mget_matmul n k n _ _ i j HAM HT Hk Hi Hj).
  rewrite (sumq_ext k _
             (fun b => sumq k (fun a => mget A i a * mget M a b * mget A j b))).
  - apply sumq_swap.
  - intros b Hb. rewrite (mget_matmul n k k A M i b HA HM Hk Hi Hb).
    rewrite (mget_transpose n k A b j HA Hn Hb Hj).
    symmetry; apply sumq_mul_r.
Qed.

Lemma congruence_shape n k A M :
  is_matrix n k A -> is_matrix k k M -> (0 < n)%nat -> (0 < k)%nat ->
  is_matrix n n (matmul (matmul A M) (transpose A)).
Proof.
  intros HA HM Hn Hk. apply (matmul_shape n k n); auto.
  - apply (matmul_shape n k k); auto.
  - apply transpose_shape; auto.
Qed.







(** ** Row operations *)

Lemma dot_vscale c r w : dot (vscale c r) w = c * dot r w.
Proof.
  revert w; induction r as [|x r IH]; intros [|y w]; simpl; try ring.
  rewrite IH; ring.
Qed.

Lemma dot_row_sub f p r w :
  length r = length p -> dot (row_sub f p r) w = dot r w - f * dot p w.
Proof.
  unfold row_sub. revert p w; induction r as [|x r IH]; intros [|y p] w H;
    simpl in *; try discriminate; destruct w as [|z w]; simpl; try ring.
  rewrite IH by lia. ring.
Qed.

Lemma nth_vscale c r j : nth j (vscale c r) 0 = c * nth j r 0.
Proof.
  unfold vscale. revert j; induction r as [|x r IH]; intros [|j]; simpl;
    auto; ring.
Qed.

Lemma nth_row_sub f p r j :
  length r = length p ->
  nth j (row_sub f p r) 0 = nth j r 0 - f * nth j p 0.
Proof.
  unfold row_sub. revert p j; induction r as [|x r IH]; intros [|y p] j H;
    simpl in *; try discriminate.
  - destruct j; ring.
  - destruct j; auto.
Qed.

Lemma vscale_length c r : length (vscale c r) = length r.
Proof. apply length_map. Qed.

Lemma row_sub_length f p r :
  length r = length p -> length (row_sub f p r) = length r.
Proof. intros H. unfold row_sub. rewrite zip_with_length. lia. Qed.

Lemma find_pivot_some k rows p rest :
  find_pivot k rows = Some (p, rest) ->
  nth k p 0 <> 0 /\ length rows = S (length rest) /\
  (forall r, In r rows <-> r = p \/ In r rest).
Proof.
  revert p rest; induction rows as [|r0 rows IH]; simpl; intros p rest H;
    [discriminate|].
  destruct (Qc_eq_dec (nth k r0 0) 0) as [Hz|Hnz].
  - destruct (find_pivot k rows) as [[p1 rest1]|]; [|discriminate].
    injection H as <- <-. destruct (IH p1 rest1 eq_refl) as (H1 & H2 & H3).
    split; [auto|]. split; [simpl; lia|].
    intros r; simpl; rewrite H3; tauto.
  - injection H as <- <-. split; [auto|]. split; [auto|].
    intros r; split; intros [E|E]; auto.
Qed.

Lemma find_pivot_none k rows :
  find_pivot k rows = None -> forall r, In r rows -> nth k r 0 = 0.
Proof.
  induction rows as [|r0 rows IH]; simpl; intros H r Hin; [tauto|].
  destruct (Qc_eq_dec (nth k r0 0) 0) as [Hz|Hnz]; [|discriminate].
  destruct (find_pivot k rows) as [[p1 rest1]|]; [discriminate|].
  destruct Hin as [<-|Hin]; auto.
Qed.

Lemma annihilates_in rows w :
  annihilates rows w <-> (forall r, In r rows -> dot r w = 0).
Proof. apply Forall_forall. Qed.

(** ** The elimination keeps its invariant *)

Lemma gj_invariant_step L M0 k done todo p rest :
  gj_invariant L M0 k done todo -> (k < L)%nat ->
  find_pivot k todo = Some (p, rest) ->
  gj_invariant L M0 (S k)
    (map (eliminate k (vscale (/ nth k p 0) p)) done
       ++ [vscale (/ nth k p 0) p])
    (map (eliminate k (vscale (/ nth k p 0) p)) rest).
Proof.
  intros (HL & HK & Hlen & HD & HT) Hk Hf.
  destruct (find_pivot_some k todo p rest Hf) as (Hp & _ & Hin).
  set (c := / nth k p 0). set (p' := vscale c p).
  assert (Hpt : In p todo) by (apply Hin; auto).
  assert (Lp : length p = L) by (apply HL, in_or_app; auto).
  assert (Lp' : length p' = L) by (unfold p'; rewrite vscale_length; auto).
  assert (Ldone : forall r, In r done -> length r = length p').
  { intros r Hr. rewrite Lp'. apply HL, in_or_app; auto. }
  assert (Lrest : forall r, In r rest -> length r = length p').
  { intros r Hr. rewrite Lp'. apply HL, in_or_app. right. apply Hin; auto. }
  assert (Hp'lt : forall j, (j < k)%nat -> nth j p' 0 = 0).
  { intros j Hj. unfold p'. rewrite nth_vscale, (HT p Hpt j Hj). ring. }
  assert (Hp'k : nth k p' 0 = 1).
  { unfold p', c. rewrite nth_vscale. apply Qcmult_inv_l, Hp. }
  assert (Hdotp : forall w, dot p' w = 0 <-> dot p w = 0).
  { intros w. unfold p'. rewrite dot_vscale. split; intros H.
    - replace (dot p w) with (nth k p 0 * (c * dot p w)); [rewrite H; ring|].
      unfold c. field. exact Hp.
    - rewrite H; ring. }
  assert (Hel : forall r w, length r = length p' -> dot p' w = 0 ->
                 dot (eliminate k p' r) w = dot r w).
  { intros r w Hr H0. unfold eliminate. rewrite dot_row_sub, H0 by auto. ring. }
  assert (Heln : forall r j, length r = length p' ->
                 nth j (eliminate k p' r) 0 = nth j r 0 - nth k r 0 * nth j p' 0).
  { intros r j Hr. unfold eliminate. apply nth_row_sub, Hr. }
  unfold gj_invariant. split; [|split; [|split; [|split]]].
  - intros r Hr. rewrite <- app_assoc in Hr.
    apply in_app_or in Hr. destruct Hr as [Hr|Hr].
    + apply in_map_iff in Hr. destruct Hr as (r0 & <- & Hr0).
      unfold eliminate. rewrite row_sub_length by auto.
      rewrite (Ldone r0 Hr0); auto.
    + apply in_app_or in Hr. destruct Hr as [[<-|[]]|Hr]; auto.
      apply in_map_iff in Hr. destruct Hr as (r0 & <- & Hr0).
      unfold eliminate. rewrite row_sub_length by auto.
      rewrite (Lrest r0 Hr0); auto.
  - intros w. rewrite HK, !annihilates_in. split; intros H r Hr.
    + assert (H0 : dot p' w = 0).
      { apply Hdotp, H, in_or_app; auto. }
      rewrite <- app_assoc in Hr.
      apply in_app_or in Hr. destruct Hr as [Hr|Hr].
      * apply in_map_iff in Hr. destruct Hr as (r0 & <- & Hr0).
        rewrite Hel by auto. apply H, in_or_app; auto.
      * apply in_app_or in Hr. destruct Hr as [[<-|[]]|Hr]; auto.
        apply in_map_iff in Hr. destruct Hr as (r0 & <- & Hr0).
        rewrite Hel by auto. apply H, in_or_app. right. apply Hin; auto.
    + assert (H0 : dot p' w = 0).
      { apply H. apply in_or_app. left. apply in_or_app. right. left. auto. }
      apply in_app_or in Hr. destruct Hr as [Hr|Hr].
      * rewrite <- (Hel r w) by auto. apply H.
        apply in_or_app. left. apply in_or_app. left.
        apply in_map_iff. exists r; auto.
      * apply Hin in Hr. destruct Hr as [->|Hr]; [apply Hdotp, H0|].
        rewrite <- (Hel r w) by auto. apply H.
        apply in_or_app. right. apply in_map_iff. exists r; auto.
  - rewrite length_app, length_map, Hlen. simpl. lia.
  - intros i j Hi Hj. unfold mget.
    destruct (Nat.eq_dec i k) as [->|Hik].
    + rewrite app_nth2 by (rewrite length_map; lia).
      rewrite length_map, Hlen, Nat.sub_diag. simpl.
      destruct (Nat.eqb_spec k j) as [<-|Hne]; auto.
      apply Hp'lt. lia.
    + assert (Hi' : (i < k)%nat) by lia.
      rewrite app_nth1 by (rewrite length_map; lia).
      rewrite (nth_map_lt (eliminate k p') done i [] []) by lia.
      assert (Hri : In (nth i done []) done) by (apply nth_In; lia).
      rewrite Heln by auto.
      destruct (Nat.eq_dec j k) as [->|Hjk].
      * rewrite Hp'k. destruct (Nat.eqb_spec i k); [lia|]. ring.
      * rewrite Hp'lt by lia.
        change (nth j (nth i done []) 0) with (mget done i j).
        rewrite HD by lia. ring.
  - intros r Hr j Hj.
    apply in_map_iff in Hr. destruct Hr as (r0 & <- & Hr0).
    assert (Hr0t : In r0 todo) by (apply Hin; auto).
    rewrite Heln by auto.
    destruct (Nat.eq_dec j k) as [->|Hjk].
    + rewrite Hp'k. ring.
    + rewrite Hp'lt, (HT r0 Hr0t j) by lia. ring.
Qed.

Lemma sumq_trunc k L f :
  (k <= L)%nat -> (forall j, (k <= j)%nat -> (j < L)%nat -> f j = 0) ->
  sumq L f = sumq k f.
Proof.
  induction L as [|L IH]; intros Hk Hz.
  - replace k with O by lia. reflexivity.
  - destruct (Nat.eq_dec k (S L)) as [->|Hne]; [reflexivity|].
    simpl. rewrite IH, Hz by (try lia; intros; apply Hz; lia). ring.
Qed.

Lemma gauss_jordan_some L M0 steps :
  forall k done todo rows,
    gj_invariant L M0 k done todo -> length todo = steps ->
    (k + steps <= L)%nat ->
    gauss_jordan steps k done todo = Some rows ->
    gj_invariant L M0 (k + steps) rows [].
Proof.
  induction steps as [|steps IH]; intros k done todo rows Hinv Hlen Hle Hgj.
  - simpl in Hgj. injection Hgj as <-.
    destruct todo; [|discriminate]. rewrite Nat.add_0_r. exact Hinv.
  - simpl in Hgj. destruct (find_pivot k todo) as [[p rest]|] eqn:Hf;
      [|discriminate].
    destruct (find_pivot_some k todo p rest Hf) as (_ & Hl & _).
    replace (k + S steps)%nat with (S k + steps)%nat by lia.
    apply (IH (S k) _ _ rows
             (gj_invariant_step L M0 k done todo p rest Hinv ltac:(lia) Hf));
      [rewrite length_map; lia | lia | exact Hgj].
Qed.

Lemma gauss_jordan_none L M0 steps :
  forall k done todo,
    gj_invariant L M0 k done todo -> length todo = steps ->
    (k + steps <= L)%nat ->
    gauss_jordan steps k done todo = None ->
    exists k' done' todo',
      gj_invariant L M0 k' done' todo' /\ (k' < k + steps)%nat /\
      find_pivot k' todo' = None.
Proof.
  induction steps as [|steps IH]; intros k done todo Hinv Hlen Hle Hgj.
  - discriminate.
  - simpl in Hgj. destruct (find_pivot k todo) as [[p rest]|] eqn:Hf.
    + destruct (find_pivot_some k todo p rest Hf) as (_ & Hl & _).
      destruct (IH (S k) _ _ (gj_invariant_step L M0 k done todo p rest
                                Hinv ltac:(lia) Hf)
                  ltac:(rewrite length_map; lia) ltac:(lia) Hgj)
        as (k' & done' & todo' & H1 & H2 & H3).
      exists k', done', todo'. split; [auto|]. split; [lia|auto].
    + exists k, done, todo. split; [auto|]. split; [lia|auto].
Qed.

Lemma nth_kernel_vector L k done j :
  (j < L)%nat ->
  nth j (kernel_vector L k done) 0 =
  if Nat.ltb j k then - mget done j k else if Nat.eqb j k then 1 else 0.
Proof.
  intros Hj. unfold kernel_vector.
  rewrite (nth_map_lt
             (fun j0 => if Nat.ltb j0 k then - mget done j0 k
                        else if Nat.eqb j0 k then 1 else 0)
             (seq 0 L) j O 0) by (rewrite length_seq; auto).
  rewrite seq_nth by auto. reflexivity.
Qed.

Lemma kernel_vector_length L k done : length (kernel_vector L k done) = L.
Proof. unfold kernel_vector. rewrite length_map, length_seq; auto. Qed.

(** Without a pivot in column [k], every row annihilates the kernel vector. *)
Lemma kernel_vector_annihilated L M0 k done todo :
  gj_invariant L M0 k done todo -> (k < L)%nat ->
  find_pivot k todo = None ->
  annihilates M0 (kernel_vector L k done).
Proof.
  intros (HL & HK & Hlen & HD & HT) Hk Hf.
  apply (proj2 (HK _)). apply annihilates_in. intros r Hr.
  rewrite (dot_sum L r _ (HL r Hr) (kernel_vector_length L k done)).
  rewrite (sumq_trunc (S k) L); [|lia|].
  2:{ intros j Hj1 Hj2. rewrite nth_kernel_vector by auto.
      destruct (Nat.ltb_spec j k); [lia|].
      destruct (Nat.eqb_spec j k); [lia|ring]. }
  simpl. rewrite (nth_kernel_vector L k done k Hk).
  rewrite Nat.ltb_irrefl, Nat.eqb_refl.
  apply in_app_or in Hr. destruct Hr as [Hr|Hr].
  - destruct (In_nth done r [] Hr) as (i & Hi & <-).
    rewrite (sumq_ext k _
               (fun j => (if Nat.eqb i j then 1 else 0) * - mget done j k)).
    + rewrite sumq_delta_l by lia. unfold mget. ring.
    + intros j Hj. rewrite nth_kernel_vector by lia.
      destruct (Nat.ltb_spec j k); [|lia].
      change (nth j (nth i done []) 0) with (mget done i j).
      rewrite HD by lia. reflexivity.
  - rewrite (find_pivot_none k todo Hf r Hr).
    rewrite (sumq_ext k _ (fun _ => 0)).
    + rewrite sumq_zero. ring.
    + intros j Hj. rewrite (HT r Hr j Hj). ring.
Qed.

(** ** The rows of [[A | B]] *)

Lemma dot_app a b x y :
  length a = length x -> dot (a ++ b) (x ++ y) = dot a x + dot b y.
Proof.
  revert x; induction a as [|u a IH]; intros [|v x] H; simpl in *;
    try discriminate.
  - ring.
  - rewrite IH by lia. ring.
Qed.

Lemma dot_vscale_r c r v : dot r (vscale c v) = c * dot r v.
Proof. rewrite dot_comm, dot_vscale, dot_comm. reflexivity. Qed.

Lemma nth_matvec_dot A v i :
  (i < length A)%nat -> nth i (matvec A v) 0 = dot (nth i A []) v.
Proof.
  intros Hi. unfold matvec.
  rewrite (nth_map_lt (fun row => dot row v) A i [] 0 Hi). reflexivity.
Qed.


Lemma augment_length n A B :
  length A = n -> length B = n -> length (augment A B) = n.
Proof. intros; unfold augment; rewrite zip_with_length; lia. Qed.

Lemma nth_augment n A B i :
  length A = n -> length B = n -> (i < n)%nat ->
  nth i (augment A B) [] = nth i A [] ++ nth i B [].
Proof.
  intros HA HB Hi. unfold augment.
  apply (nth_zip_with (@app Qc) A B i [] [] []); lia.
Qed.

Lemma annihilates_nth rows w :
  annihilates rows w <->
  (forall i, (i < length rows)%nat -> dot (nth i rows []) w = 0).
Proof.
  rewrite annihilates_in. split.
  - intros H i Hi. apply H, nth_In, Hi.
  - intros H r Hr. destruct (In_nth rows r [] Hr) as (i & Hi & <-). auto.
Qed.

(** The rows of [[A | B]] annihilate [x ++ y] exactly when [A x + B y = 0]. *)
Lemma annihilates_augment n A B x y :
  is_matrix n n A -> length B = n -> length x = n ->
  annihilates (augment A B) (x ++ y) <->
  (forall i, (i < n)%nat ->
     nth i (matvec A x) 0 + nth i (matvec B y) 0 = 0).
Proof.
  intros HA HB Hx. rewrite annihilates_nth.
  rewrite (augment_length n A B (proj1 HA) HB).
  split; intros H i Hi; specialize (H i Hi).
  - rewrite (nth_augment n A B i (proj1 HA) HB Hi) in H.
    rewrite dot_app in H by (rewrite (is_matrix_row n n A i HA Hi); auto).
    rewrite !nth_matvec_dot by (destruct HA; lia). exact H.
  - rewrite (nth_augment n A B i (proj1 HA) HB Hi).
    rewrite dot_app by (rewrite (is_matrix_row n n A i HA Hi); auto).
    rewrite !nth_matvec_dot in H by (destruct HA; lia). exact H.
Qed.

(** At the end of the elimination the rows are [[I | B]]. *)
Lemma gj_final_rows n M0 rows :
  gj_invariant (n + n) M0 n rows [] ->
  is_matrix n n (map (skipn n) rows) /\
  rows = augment (eye n) (map (skipn n) rows).
Proof.
  intros (HL & _ & Hlen & HD & _). rewrite app_nil_r in HL.
  assert (HB : is_matrix n n (map (skipn n) rows)).
  { split; [rewrite length_map; auto|].
    apply Forall_forall. intros x Hx. apply in_map_iff in Hx.
    destruct Hx as (r & <- & Hr). rewrite length_skipn, (HL r Hr). lia. }
  split; [exact HB|].
  apply (nth_ext_len _ _ [] n); auto.
  - apply augment_length; [apply eye_shape | apply HB].
  - intros i Hi.
    rewrite (nth_augment n _ _ i (proj1 (eye_shape n)) (proj1 HB) Hi).
    rewrite (nth_map_lt (skipn n) rows i [] []) by lia.
    assert (Hr : In (nth i rows []) rows) by (apply nth_In; lia).
    rewrite <- (firstn_skipn n (nth i rows [])) at 1. f_equal.
    apply (vec_ext n).
    + rewrite length_firstn, (HL _ Hr). lia.
    + apply (is_matrix_row n n (eye n) i (eye_shape n) Hi).
    + intros j Hj. rewrite nth_firstn.
      destruct (Nat.ltb_spec j n); [|lia].
      change (mget rows i j = mget (eye n) i j).
      rewrite HD, mget_eye by auto. reflexivity.
Qed.

Lemma gj_initial n A :
  is_matrix n n A ->
  gj_invariant (n + n) (augment A (eye n)) 0 [] (augment A (eye n)).
Proof.
  intros HA. unfold gj_invariant. simpl.
  split; [|split; [|split; [|split]]]; try tauto; try lia.
  - intros r Hr. destruct (In_nth _ r [] Hr) as (i & Hi & <-).
    rewrite (augment_length n A (eye n) (proj1 HA) (proj1 (eye_shape n))) in Hi.
    rewrite (nth_augment n A (eye n) i (proj1 HA) (proj1 (eye_shape n)) Hi).
    rewrite length_app, (is_matrix_row n n A i HA Hi),
      (is_matrix_row n n (eye n) i (eye_shape n) Hi). reflexivity.
Qed.

(** A square matrix that fixes every vector is the identity. *)
Lemma matvec_id_eye n M :
  is_matrix n n M ->
  (forall x, length x = n -> matvec M x = x) -> M = eye n.
Proof.
  intros HM H. apply (mat_ext n n); auto using eye_shape.
  intros i j Hi Hj.
  assert (Le : length (nth j (eye n) []) = n)
    by apply (is_matrix_row n n (eye n) j (eye_shape n) Hj).
  assert (E := f_equal (fun v => nth i v 0) (H _ Le)). simpl in E.
  rewrite (nth_matvec n n M _ i HM Le Hi) in E.
  change (nth i (nth j (eye n) []) 0) with (mget (eye n) j i) in E.
  rewrite (sumq_ext n _
             (fun l => mget M i l * (if Nat.eqb l j then 1 else 0))) in E.
  - rewrite sumq_delta_r in E by auto. rewrite E.
    rewrite !mget_eye by auto. rewrite Nat.eqb_sym. reflexivity.
  - intros l Hl. change (nth l (nth j (eye n) []) 0) with (mget (eye n) j l).
    rewrite mget_eye by auto. rewrite Nat.eqb_sym. reflexivity.
Qed.

(** ** [np.linalg.inv] returns the inverse, or raises on a singular matrix *)

Lemma matvec_vscale A c v : matvec A (vscale c v) = vscale c (matvec A v).
Proof.
  unfold matvec. unfold vscale at 2. rewrite map_map.
  apply map_ext. intros row. apply dot_vscale_r.
Qed.

Lemma matvec_zero r c A :
  is_matrix r c A -> matvec A (repeat 0 c) = repeat 0 r.
Proof.
  intros HA. apply (vec_ext r).
  - apply matvec_length, HA.
  - apply repeat_length.
  - intros i Hi.
    rewrite (nth_matvec r c A _ i HA (repeat_length _ _) Hi).
    rewrite nth_repeat.
    rewrite (sumq_ext c _ (fun _ => 0)); [apply sumq_zero|].
    intros l Hl. rewrite nth_repeat. ring.
Qed.

Lemma is_square_true n A : is_matrix n n A -> is_square A = true.
Proof.
  intros [Hl Hf]. unfold is_square. apply forallb_forall. intros row Hr.
  rewrite Forall_forall in Hf. rewrite (Hf row Hr), Hl. apply Nat.eqb_refl.
Qed.

Lemma gauss_jordan_inverse n A rows :
  (0 < n)%nat -> is_matrix n n A ->
  gauss_jordan n 0 [] (augment A (eye n)) = Some rows ->
  inverse_of n A (map (skipn n) rows).
Proof.
  intros Hn HA Hgj.
  assert (Hfin := gauss_jordan_some (n + n) (augment A (eye n)) n 0 [] _ rows
                    (gj_initial n A HA)
                    (augment_length n A (eye n) (proj1 HA) (proj1 (eye_shape n)))
                    ltac:(lia) Hgj).
  simpl in Hfin.
  destruct (gj_final_rows n _ rows Hfin) as (HB & Hrows).
  destruct Hfin as (_ & HK & _).
  remember (map (skipn n) rows) as B eqn:HeqB. clear HeqB.
  assert (HK' : forall x y, length x = n -> length y = n ->
            (forall i, (i < n)%nat -> nth i (matvec A x) 0 + nth i y 0 = 0) <->
            (forall i, (i < n)%nat -> nth i x 0 + nth i (matvec B y) 0 = 0)).
  { intros x y Hx Hy. specialize (HK (x ++ y)).
    rewrite app_nil_r in HK. rewrite Hrows in HK.
    rewrite (annihilates_augment n A (eye n) x y HA (proj1 (eye_shape n)) Hx)
      in HK.
    rewrite (annihilates_augment n (eye n) B x y (eye_shape n) (proj1 HB) Hx)
      in HK.
    rewrite (matvec_eye n y Hy), (matvec_eye n x Hx) in HK. exact HK. }
  split; [exact HB|]. split.
  - apply matvec_id_eye; [apply (matmul_shape n n n); auto|].
    intros y Hy. rewrite (matvec_matmul n n n A B y HA HB Hn Hy).
    assert (LB := matvec_length n B y (proj1 HB)).
    assert (LAB := matvec_length n A (matvec B y) (proj1 HA)).
    apply (vec_ext n); auto. intros i Hi.
    assert (E := proj2 (HK' (vscale (- (1)) (matvec B y)) y
                          ltac:(rewrite vscale_length; auto) Hy)).
    rewrite matvec_vscale in E.
    specialize (E ltac:(intros j Hj; rewrite nth_vscale; ring) i Hi).
    rewrite nth_vscale in E.
    replace (nth i y 0) with
      (nth i (matvec A (matvec B y)) 0 +
       (- (1) * nth i (matvec A (matvec B y)) 0 + nth i y 0)) by ring.
    rewrite E. ring.
  - apply matvec_id_eye; [apply (matmul_shape n n n); auto|].
    intros x Hx. rewrite (matvec_matmul n n n B A x HB HA Hn Hx).
    assert (LA := matvec_length n A x (proj1 HA)).
    assert (LBA := matvec_length n B (matvec A x) (proj1 HB)).
    apply (vec_ext n); auto. intros i Hi.
    assert (E := proj1 (HK' x (vscale (- (1)) (matvec A x)) Hx
                          ltac:(rewrite vscale_length; auto))).
    rewrite matvec_vscale in E.
    specialize (E ltac:(intros j Hj; rewrite nth_vscale; ring) i Hi).
    rewrite nth_vscale in E.
    replace (nth i x 0) with
      (nth i (matvec B (matvec A x)) 0 +
       (nth i x 0 + - (1) * nth i (matvec B (matvec A x)) 0)) by ring.
    rewrite E. ring.
Qed.

Lemma kernel_vector_split n k done :
  (k < n)%nat ->
  kernel_vector (n + n) k done = kernel_vector n k done ++ repeat 0 n.
Proof.
  intros Hk. unfold kernel_vector. rewrite seq_app, map_app. f_equal.
  apply (nth_ext_len _ _ 0 n).
  - rewrite length_map, length_seq; auto.
  - apply repeat_length.
  - intros i Hi. rewrite nth_repeat.
    rewrite (nth_map_lt
               (fun j => if Nat.ltb j k then - mget done j k
                         else if Nat.eqb j k then 1 else 0)
               (seq (0 + n) n) i O 0) by (rewrite length_seq; auto).
    rewrite seq_nth by auto.
    destruct (Nat.ltb_spec (0 + n + i) k); [lia|].
    destruct (Nat.eqb_spec (0 + n + i) k); [lia|reflexivity].
Qed.

(** When the elimination stops, [A] sends a non-zero vector to zero. *)
Lemma gauss_jordan_kernel n A :
  (0 < n)%nat -> is_matrix n n A ->
  gauss_jordan n 0 [] (augment A (eye n)) = None ->
  exists v k, length v = n /\ (k < n)%nat /\ nth k v 0 = 1 /\
              matvec A v = repeat 0 n.
Proof.
  intros Hn HA Hgj.
  destruct (gauss_jordan_none (n + n) (augment A (eye n)) n 0 [] _
              (gj_initial n A HA)
              (augment_length n A (eye n) (proj1 HA) (proj1 (eye_shape n)))
              ltac:(lia) Hgj) as (k & done & todo & Hinv & Hk & Hf).
  simpl in Hk.
  assert (Hann := kernel_vector_annihilated (n + n) _ k done todo Hinv
                    ltac:(lia) Hf).
  rewrite (kernel_vector_split n k done Hk) in Hann.
  rewrite (annihilates_augment n A (eye n) _ _ HA (proj1 (eye_shape n))
             (kernel_vector_length n k done)) in Hann.
  exists (kernel_vector n k done), k.
  split; [apply kernel_vector_length|]. split; [exact Hk|]. split.
  - rewrite nth_kernel_vector by auto.
    rewrite Nat.ltb_irrefl, Nat.eqb_refl. reflexivity.
  - apply (vec_ext n).
    + apply matvec_length, HA.
    + apply repeat_length.
    + intros i Hi. specialize (Hann i Hi).
      rewrite (matvec_eye n _ (repeat_length _ _)) in Hann.
      rewrite nth_repeat in *.
      rewrite Qcplus_0_r in Hann. exact Hann.
Qed.

Lemma inverse_unique n A B B' :
  (0 < n)%nat -> is_matrix n n A ->
  inverse_of n A B -> inverse_of n A B' -> B = B'.
Proof.
  intros Hn HA (HB & HAB & HBA) (HB' & HAB' & HBA').
  rewrite <- (matmul_eye_r n n B HB Hn), <- HAB'.
  rewrite <- (matmul_assoc n n n n B A B') by auto.
  rewrite HBA. apply (matmul_eye_l n n); auto.
Qed.

Lemma linalg_inv_sound n A B :
  (0 < n)%nat -> is_matrix n n A -> linalg_inv A = Ok B -> inverse_of n A B.
Proof.
  intros Hn HA. unfold linalg_inv.
  rewrite (is_square_true n A HA), (proj1 HA).
  destruct (gauss_jordan n 0 [] (augment A (eye n))) as [rows|] eqn:Hgj;
    [|discriminate].
  intros E. injection E as <-. apply gauss_jordan_inverse; auto.
Qed.

Lemma linalg_inv_complete n A B :
  (0 < n)%nat -> is_matrix n n A -> inverse_of n A B -> linalg_inv A = Ok B.
Proof.
  intros Hn HA HI. unfold linalg_inv.
  rewrite (is_square_true n A HA), (proj1 HA).
  destruct (gauss_jordan n 0 [] (augment A (eye n))) as [rows|] eqn:Hgj.
  - f_equal. apply (inverse_unique n A); auto.
    apply gauss_jordan_inverse; auto.
  - exfalso.
    destruct (gauss_jordan_kernel n A Hn HA Hgj) as (v & k & Hv & Hk & H1 & H0).
    destruct HI as (HB & _ & HBA).
    assert (E : matvec (matmul B A) v = matvec B (matvec A v))
      by (apply (matvec_matmul n n n); auto).
    rewrite HBA, (matvec_eye n v Hv), H0, (matvec_zero n n B HB) in E.
    assert (E' := f_equal (fun u => nth k u 0) E). simpl in E'.
    rewrite H1, nth_repeat in E'. discriminate.
Qed.

Lemma linalg_inv_singular n A :
  (0 < n)%nat -> is_matrix n n A -> singular n A ->
  linalg_inv A = Raise LinAlgError.
Proof.
  intros Hn HA HS.
  destruct (linalg_inv A) as [B|[]] eqn:E; [|reflexivity].
  exfalso. apply HS. exists B. apply linalg_inv_sound; auto.
Qed.

(** The two outcomes of the inversion of a square matrix. *)
Lemma linalg_inv_spec n A :
  (0 < n)%nat -> is_matrix n n A ->
  (forall B, linalg_inv A = Ok B <-> inverse_of n A B) /\
  (linalg_inv A = Raise LinAlgError <-> singular n A).
Proof.
  intros Hn HA. split.
  - intros B. split.
    + apply linalg_inv_sound; auto.
    + apply linalg_inv_complete; auto.
  - split.
    + intros E [B HB].
      rewrite (linalg_inv_complete n A B Hn HA HB) in E. discriminate.
    + apply linalg_inv_singular; auto.
Qed.

(** ** The loops of [make_nd] in closed form *)

(** Reading a concatenation of pieces of equal length [c]. *)
Lemma nth_flat_map_uniform {X Y : Type} (f : X -> list Y) (l : list X)
  (c q : nat) (d : Y) (dx : X) :
  (forall x, In x l -> length (f x) = c) ->
  (q < length l * c)%nat ->
  nth q (flat_map f l) d = nth (q mod c) (f (nth (q / c) l dx)) d.
Proof.
  revert q; induction l as [|x l IH]; intros q Hlen Hq; simpl in *; [lia|].
  assert (Hc : c <> O) by (intros ->; lia).
  assert (Lx : length (f x) = c) by (apply Hlen; auto).
  destruct (Nat.lt_ge_cases q c) as [Hlt|Hge].
  - rewrite app_nth1 by lia.
    rewrite Nat.mod_small, Nat.div_small by auto. reflexivity.
  - rewrite app_nth2 by lia. rewrite Lx.
    replace q with ((q - c) + 1 * c)%nat at 2 3 by lia.
    rewrite Nat.Div0.mod_add, Nat.div_add by auto.
    rewrite Nat.add_1_r. apply IH; [intros; apply Hlen; auto | lia].
Qed.

Lemma flat_map_length_uniform {X Y : Type} (f : X -> list Y) (l : list X) c :
  (forall x, In x l -> length (f x) = c) ->
  length (flat_map f l) = (length l * c)%nat.
Proof.
  induction l as [|x l IH]; intros Hlen; simpl; auto.
  rewrite length_app, IH by (intros; apply Hlen; simpl; auto).
  rewrite (Hlen x) by (simpl; auto). reflexivity.
Qed.

Lemma make_nd_inner_some mtx i js acc :
  fold_left
    (fun col j =>
       if Nat.eqb i j
       then Some (concat_optional [col; Some mtx] 0)
       else Some (concat_optional [col; Some (zeros_like mtx)] 0))
    js (Some acc)
  = Some (acc ++ flat_map (make_nd_block mtx i) js).
Proof.
  revert acc; induction js as [|j js IH]; intros acc; cbn [fold_left flat_map].
  - rewrite app_nil_r; reflexivity.
  - replace (if Nat.eqb i j
             then Some (concat_optional [Some acc; Some mtx] 0)
             else Some (concat_optional [Some acc; Some (zeros_like mtx)] 0))
      with (Some (acc ++ make_nd_block mtx i j))
      by (unfold make_nd_block; destruct (Nat.eqb i j); reflexivity).
    rewrite IH, app_assoc. reflexivity.
Qed.

Lemma make_nd_inner mtx ndim i :
  (0 < ndim)%nat ->
  fold_left
    (fun col j =>
       if Nat.eqb i j
       then Some (concat_optional [col; Some mtx] 0)
       else Some (concat_optional [col; Some (zeros_like mtx)] 0))
    (seq 0 ndim) None
  = Some (make_nd_col mtx ndim i).
Proof.
  intros Hn. unfold make_nd_col. destruct ndim as [|n]; [lia|].
  simpl seq. cbn [fold_left flat_map].
  replace (if Nat.eqb i 0
           then Some (concat_optional [None; Some mtx] 0)
           else Some (concat_optional [None; Some (zeros_like mtx)] 0))
    with (Some (make_nd_block mtx i 0))
    by (unfold make_nd_block; destruct (Nat.eqb i 0); reflexivity).
  apply make_nd_inner_some.
Qed.

Lemma make_nd_outer_some (C : nat -> matrix) ks acc :
  fold_left (fun base i => Some (concat_optional [base; Some (C i)] 1))
    ks (Some acc)
  = Some (fold_left (fun b i => zip_with (@app Qc) b (C i)) ks acc).
Proof.
  revert acc; induction ks as [|i ks IH]; intros acc; simpl; auto.
Qed.

(** Joining matrices of [R] rows side by side joins their rows. *)
Lemma hstack_rows (C : nat -> matrix) R ks :
  (forall i, length (C i) = R) ->
  forall acc, length acc = R ->
    length (fold_left (fun b i => zip_with (@app Qc) b (C i)) ks acc) = R /\
    forall p, (p < R)%nat ->
      nth p (fold_left (fun b i => zip_with (@app Qc) b (C i)) ks acc) [] =
      nth p acc [] ++ flat_map (fun i => nth p (C i) []) ks.
Proof.
  intros HC. induction ks as [|i ks IH]; intros acc Hacc; simpl.
  - split; auto. intros; rewrite app_nil_r; reflexivity.
  - assert (L : length (zip_with (@app Qc) acc (C i)) = R)
      by (rewrite zip_with_length, HC; lia).
    destruct (IH _ L) as [H1 H2]. split; auto.
    intros p Hp. rewrite (H2 p Hp).
    rewrite (nth_zip_with (@app Qc) acc (C i) p [] [] [])
      by (rewrite ?HC; lia).
    rewrite app_assoc. reflexivity.
Qed.

Lemma fold_left_ext_fun {X Y : Type} (f g : X -> Y -> X) l a :
  (forall x y, f x y = g x y) -> fold_left f l a = fold_left g l a.
Proof.
  intros H. revert a; induction l as [|y l IH]; intros a; simpl; auto.
  rewrite H. apply IH.
Qed.

Lemma make_nd_closed {X : Type} (gen : X -> matrix) ndim args :
  make_nd gen (S ndim) args =
  Some (fold_left
          (fun b i => zip_with (@app Qc) b (make_nd_col (gen args) (S ndim) i))
          (seq 1 ndim) (make_nd_col (gen args) (S ndim) 0)).
Proof.
  unfold make_nd.
  rewrite (fold_left_ext_fun _
             (fun base i =>
                Some (concat_optional
                        [base; Some (make_nd_col (gen args) (S ndim) i)] 1))).
  - simpl seq. cbn [fold_left].
    apply (make_nd_outer_some (make_nd_col (gen args) (S ndim))).
  - intros base i. cbv zeta. rewrite make_nd_inner by lia. reflexivity.
Qed.

Lemma zeros_like_shape r c A : is_matrix r c A -> is_matrix r c (zeros_like A).
Proof.
  intros [H1 H2]. unfold zeros_like. split.
  - rewrite length_map; auto.
  - apply Forall_forall. intros x Hx. apply in_map_iff in Hx.
    destruct Hx as (row & <- & Hr). rewrite length_map.
    rewrite Forall_forall in H2; auto.
Qed.

Lemma mget_zeros_like A i j : mget (zeros_like A) i j = 0.
Proof.
  unfold zeros_like, mget.
  destruct (Nat.lt_ge_cases i (length A)) as [Hi|Hi].
  - rewrite (nth_map_lt (map (fun _ : Qc => 0)) A i [] []) by auto.
    destruct (Nat.lt_ge_cases j (length (nth i A []))) as [Hj|Hj].
    + rewrite (nth_map_lt (fun _ : Qc => 0) (nth i A []) j 0 0) by auto.
      reflexivity.
    + apply nth_overflow. rewrite length_map; auto.
  - rewrite (nth_overflow (map _ A)) by (rewrite length_map; auto).
    destruct j; reflexivity.
Qed.

Lemma make_nd_block_shape r c mtx i j :
  is_matrix r c mtx -> is_matrix r c (make_nd_block mtx i j).
Proof.
  intros H. unfold make_nd_block. destruct (Nat.eqb i j); auto.
  apply zeros_like_shape; auto.
Qed.

Lemma make_nd_col_length r c mtx ndim i :
  is_matrix r c mtx -> length (make_nd_col mtx ndim i) = (ndim * r)%nat.
Proof.
  intros H. unfold make_nd_col.
  rewrite (flat_map_length_uniform _ _ r), length_seq; auto.
  intros j _. apply (make_nd_block_shape r c mtx i j H).
Qed.

(** Row [p] of block column [i]. *)
Lemma make_nd_col_row r c mtx ndim i p :
  is_matrix r c mtx -> (p < ndim * r)%nat ->
  nth p (make_nd_col mtx ndim i) [] =
  nth (p mod r) (make_nd_block mtx i (p / r)) [].
Proof.
  intros H Hp. unfold make_nd_col.
  assert (Hr : r <> O) by (intros ->; lia).
  rewrite (nth_flat_map_uniform _ _ r p [] O).
  - rewrite seq_nth; [reflexivity|].
    apply Nat.Div0.div_lt_upper_bound. lia.
  - intros j _. apply (make_nd_block_shape r c mtx i j H).
  - rewrite length_seq; auto.
Qed.

Lemma make_nd_col_row_length r c mtx ndim i p :
  is_matrix r c mtx -> (p < ndim * r)%nat ->
  length (nth p (make_nd_col mtx ndim i) []) = c.
Proof.
  intros H Hp. rewrite (make_nd_col_row r c mtx ndim i p H Hp).
  apply (is_matrix_row r c _ _ (make_nd_block_shape r c mtx i (p / r) H)).
  apply Nat.mod_upper_bound. intros ->; lia.
Qed.

(** The shape and the entries of the expanded matrix. *)
Lemma make_nd_entries {X : Type} (gen : X -> matrix) ndim args r c :
  is_matrix r c (gen args) -> (0 < ndim)%nat ->
  exists base,
    make_nd gen ndim args = Some base /\
    is_matrix (ndim * r) (ndim * c) base /\
    forall p q, (p < ndim * r)%nat -> (q < ndim * c)%nat ->
      mget base p q =
      if Nat.eqb (q / c) (p / r)
      then mget (gen args) (p mod r) (q mod c) else 0.
Proof.
  intros H Hn. destruct ndim as [|n]; [lia|].
  rewrite make_nd_closed. eexists; split; [reflexivity|].
  set (N := S n) in *. set (C := make_nd_col (gen args) N).
  destruct (hstack_rows C (N * r) (seq 1 n)
              (fun i => make_nd_col_length r c (gen args) N i H)
              (C O) (make_nd_col_length r c (gen args) N O H)) as [HL HR].
  assert (Hrow : forall p, (p < N * r)%nat ->
            nth p (fold_left (fun b i => zip_with (@app Qc) b (C i))
                     (seq 1 n) (C O)) [] =
            flat_map (fun i => nth p (C i) []) (seq 0 N)).
  { intros p Hp. rewrite (HR p Hp). reflexivity. }
  assert (Hpiece : forall p, (p < N * r)%nat ->
            forall i, In i (seq 0 N) -> length (nth p (C i) []) = c).
  { intros p Hp i _. apply (make_nd_col_row_length r c); auto. }
  split; [split; [exact HL|]|].
  - apply Forall_forall. intros row Hrw.
    destruct (In_nth _ row [] Hrw) as (p & Hp & <-). rewrite HL in Hp.
    rewrite (Hrow p Hp).
    rewrite (flat_map_length_uniform _ _ c (Hpiece p Hp)), length_seq.
    reflexivity.
  - intros p q Hp Hq. unfold mget at 1. rewrite (Hrow p Hp).
    assert (Hc : c <> O) by (intros ->; lia).
    rewrite (nth_flat_map_uniform _ _ c q 0 O (Hpiece p Hp))
      by (rewrite length_seq; auto).
    rewrite seq_nth by (apply Nat.Div0.div_lt_upper_bound; lia).
    simpl Nat.add. unfold C.
    rewrite (make_nd_col_row r c (gen args) N (q / c) p H Hp).
    unfold make_nd_block. destruct (Nat.eqb (q / c) (p / r)).
    + reflexivity.
    + apply mget_zeros_like.
Qed.

(** ** The block-diagonal expansion *)

(** C4.  For a generator whose output [gen args] is an r x c matrix and an
    axis count [ndim >= 1], [make_nd] returns an (ndim*r) x (ndim*c) matrix
    whose i-th diagonal block (rows [i*r .. (i+1)*r), columns
    [i*c .. (i+1)*c)) equals the generator's output, and whose entries
    outside the [ndim] diagonal blocks are all zero. *)
Theorem C4_make_nd_block_diagonal {X : Type} (gen : X -> matrix)
  (ndim : nat) (args : X) (r c : nat) :
  is_matrix r c (gen args) -> (1 <= ndim)%nat ->
  exists base,
    make_nd gen ndim args = Some base /\
    is_matrix (ndim * r) (ndim * c) base /\
    (forall i a b, (i < ndim)%nat -> (a < r)%nat -> (b < c)%nat ->
       mget base (i * r + a) (i * c + b) = mget (gen args) a b) /\
    (forall p q, (p < ndim * r)%nat -> (q < ndim * c)%nat ->
       (forall i, (i < ndim)%nat -> ~ in_block r c i p q) ->
       mget base p q = 0).
Proof.
  intros H Hn.
  destruct (make_nd_entries gen ndim args r c H Hn) as (base & E & Hs & He).
  exists base. split; [exact E|]. split; [exact Hs|]. split.
  - intros i a b Hi Ha Hb.
    assert (Hp : (i * r + a < ndim * r)%nat) by nia.
    assert (Hq : (i * c + b < ndim * c)%nat) by nia.
    rewrite (He _ _ Hp Hq).
    rewrite <- (Nat.div_unique (i * r + a) r i a Ha) by lia.
    rewrite <- (Nat.div_unique (i * c + b) c i b Hb) by lia.
    rewrite <- (Nat.mod_unique (i * r + a) r i a Ha) by lia.
    rewrite <- (Nat.mod_unique (i * c + b) c i b Hb) by lia.
    rewrite Nat.eqb_refl. reflexivity.
  - intros p q Hp Hq Hout. rewrite (He p q Hp Hq).
    destruct (Nat.eqb_spec (q / c) (p / r)) as [E'|]; [|reflexivity].
    exfalso. apply (Hout (p / r)%nat).
    + apply Nat.Div0.div_lt_upper_bound. lia.
    + assert (Hr : r <> O) by (intros ->; lia).
      assert (Hc : c <> O) by (intros ->; lia).
      pose proof (Nat.div_mod_eq p r). pose proof (Nat.mod_upper_bound p r Hr).
      pose proof (Nat.div_mod_eq q c). pose proof (Nat.mod_upper_bound q c Hc).
      unfold in_block. rewrite E' in *. nia.
Qed.

Lemma C4_witness :
  exists base,
    make_nd get_control_matrix_axis 2 1 = Some base /\
    is_matrix (2 * 3) (2 * 2) base /\
    (forall i a b, (i < 2)%nat -> (a < 3)%nat -> (b < 2)%nat ->
       mget base (i * 3 + a) (i * 2 + b) = mget (get_control_matrix_axis 1) a b) /\
    (forall p q, (p < 2 * 3)%nat -> (q < 2 * 2)%nat ->
       (forall i, (i < 2)%nat -> ~ in_block 3 2 i p q) ->
       mget base p q = 0).
Proof.
  apply (C4_make_nd_block_diagonal get_control_matrix_axis 2 1 3 2).
  - split; [reflexivity|]. repeat constructor.
  - lia.
Defined.

(** ** One step of the recursion *)

Lemma innovation_cov_shape n m H P R :
  (0 < n)%nat -> (0 < m)%nat ->
  is_matrix m n H -> is_matrix n n P -> is_matrix m m R ->
  is_matrix m m (innovation_cov H P R).
Proof.
  intros Hn Hm HH HP HR. unfold innovation_cov.
  apply madd_shape; auto. apply (congruence_shape m n); auto.
Qed.

Lemma kalman_gain_shape n m H P S_inv :
  (0 < n)%nat -> (0 < m)%nat ->
  is_matrix m n H -> is_matrix n n P -> is_matrix m m S_inv ->
  is_matrix n m (kalman_gain H P S_inv).
Proof.
  intros Hn Hm HH HP HS. unfold kalman_gain.
  apply (matmul_shape n m m); auto.
  apply (matmul_shape n n m); auto. apply transpose_shape; auto.
Qed.

(** The update, once the innovation covariance has an inverse. *)
Lemma update_invertible n m H P R x z S_inv :
  (0 < n)%nat -> (0 < m)%nat ->
  is_matrix m n H -> is_matrix n n P -> is_matrix m m R ->
  inverse_of m (innovation_cov H P R) S_inv ->
  update H z R {| x_est := x; p_est := P |} =
  Ok {| x_est := vadd x (matvec (kalman_gain H P S_inv)
                           (vsub z (matvec H x)));
        p_est := joseph_form n (kalman_gain H P S_inv) H P R |}.
Proof.
  intros Hn Hm HH HP HR HI. unfold update. cbn [x_est p_est].
  rewrite (linalg_inv_complete m _ S_inv Hm
             (innovation_cov_shape n m H P R Hn Hm HH HP HR) HI).
  rewrite (is_matrix_ncols m n H HH Hm). reflexivity.
Qed.



Lemma predict_state_entries n c F G Q u x P i :
  is_matrix n n F -> is_matrix n c G -> length x = n -> length u = c ->
  (i < n)%nat ->
  nth i (x_est (predict F G Q u {| x_est := x; p_est := P |})) 0 =
  sumq n (fun j => mget F i j * nth j x 0) +
  sumq c (fun j => mget G i j * nth j u 0).
Proof.
  intros HF HG Hx Hu Hi. unfold predict. cbn [x_est].
  rewrite (nth_vadd n _ _ i (matvec_length n F x (proj1 HF))
             (matvec_length n G u (proj1 HG)) Hi).
  rewrite (nth_matvec n n F x i HF Hx Hi), (nth_matvec n c G u i HG Hu Hi).
  reflexivity.
Qed.

Lemma predict_cov_entries n F G Q u x P i j :
  (0 < n)%nat -> is_matrix n n F -> is_matrix n n P -> is_matrix n n Q ->
  (i < n)%nat -> (j < n)%nat ->
  mget (p_est (predict F G Q u {| x_est := x; p_est := P |})) i j =
  sumq n (fun a => sumq n (fun b => mget F i a * mget P a b * mget F j b)) +
  mget Q i j.
Proof.
  intros Hn HF HP HQ Hi Hj. unfold predict. cbn [p_est].
  rewrite (mget_madd n n _ Q i j (congruence_shape n n F P HF HP Hn Hn) HQ Hi Hj).
  rewrite (mget_congruence n n F P i j HF HP Hn Hn Hi Hj). reflexivity.
Qed.

Lemma predict_shapes n c F G Q u x P :
  (0 < n)%nat -> is_matrix n n F -> is_matrix n c G -> is_matrix n n P ->
  is_matrix n n Q -> length x = n -> length u = c ->
  length (x_est (predict F G Q u {| x_est := x; p_est := P |})) = n /\
  is_matrix n n (p_est (predict F G Q u {| x_est := x; p_est := P |})).
Proof.
  intros Hn HF HG HP HQ Hx Hu. unfold predict. cbn [x_est p_est]. split.
  - apply vadd_length; apply matvec_length; [apply HF | apply HG].
  - apply madd_shape; auto. apply (congruence_shape n n); auto.
Qed.

(** Squares are not negative. *)
Lemma Qc_square_nonneg (a : Qc) : 0 <= a * a.
Proof.
  destruct (Qclt_le_dec a 0) as [Hlt|Hle].
  - replace (a * a) with ((- a) * (- a)) by ring.
    assert (H : 0 <= - a).
    { apply Qclt_le_weak in Hlt. apply Qcopp_le_compat in Hlt.
      replace (- 0) with 0 in Hlt by ring. exact Hlt. }
    rewrite <- (Qcmult_0_l (- a)) at 1.
    apply Qcmult_le_compat_r; auto.
  - rewrite <- (Qcmult_0_l a) at 1. apply Qcmult_le_compat_r; auto.
Qed.

(** ** Small concrete matrices *)

Lemma is_matrix_1x1 (q : Qc) : is_matrix 1 1 [[q]].
Proof. split; [reflexivity|]. repeat constructor. Qed.


Lemma inverse_1x1 (q : Qc) : q <> 0 -> inverse_of 1 [[q]] [[/ q]].
Proof.
  intros Hq. split; [apply is_matrix_1x1|].
  split; unfold_arrays; split_arrays; field; exact Hq.
Qed.

(** C3.  One Predict step on conformable operands (an n-vector [x], n x n
    matrices [F], [P], [Q], an n x c matrix [G], a c-vector [u]) always
    succeeds and yields an n-vector and an n x n matrix with
    x'[i] = sum_j F[i][j] x[j] + sum_j G[i][j] u[j] and
    P'[i][j] = sum_a sum_b F[i][a] P[a][b] F[j][b] + Q[i][j],
    that is x' = F x + G u and P' = F P F^T + Q. *)
Theorem C3_predict_step n c F G Q u x P :
  (0 < n)%nat ->
  is_matrix n n F -> is_matrix n c G -> is_matrix n n Q -> is_matrix n n P ->
  length x = n -> length u = c ->
  exists x' P',
    apply_call (Predict F G Q u) {| x_est := x; p_est := P |}
      = Ok {| x_est := x'; p_est := P' |} /\
    length x' = n /\ is_matrix n n P' /\
    (forall i, (i < n)%nat ->
       nth i x' 0 = sumq n (fun j => mget F i j * nth j x 0) +
                    sumq c (fun j => mget G i j * nth j u 0)) /\
    (forall i j, (i < n)%nat -> (j < n)%nat ->
       mget P' i j =
       sumq n (fun a => sumq n (fun b => mget F i a * mget P a b * mget F j b))
       + mget Q i j).
Proof.
  intros Hn HF HG HQ HP Hx Hu.
  exists (x_est (predict F G Q u {| x_est := x; p_est := P |})),
         (p_est (predict F G Q u {| x_est := x; p_est := P |})).
  destruct (predict_shapes n c F G Q u x P Hn HF HG HP HQ Hx Hu) as [L S].
  split; [reflexivity|]. split; [exact L|]. split; [exact S|]. split.
  - intros i Hi. apply predict_state_entries; auto.
  - intros i j Hi Hj. apply predict_cov_entries; auto.
Qed.

Lemma C3_witness :
  exists x' P',
    apply_call (Predict (get_transition_matrix_axis 1)
                  (get_control_matrix_axis 1) (zeros 3 3) [1; 0])
      {| x_est := [0; 0; 0]; p_est := get_starting_uncertainty_axis 1 |}
      = Ok {| x_est := x'; p_est := P' |} /\
    length x' = 3%nat /\ is_matrix 3 3 P' /\
    (forall i, (i < 3)%nat ->
       nth i x' 0 =
       sumq 3 (fun j => mget (get_transition_matrix_axis 1) i j
                        * nth j [0; 0; 0] 0) +
       sumq 2 (fun j => mget (get_control_matrix_axis 1) i j
                        * nth j [1; 0] 0)) /\
    (forall i j, (i < 3)%nat -> (j < 3)%nat ->
       mget P' i j =
       sumq 3 (fun a => sumq 3 (fun b =>
                 mget (get_transition_matrix_axis 1) i a
                 * mget (get_starting_uncertainty_axis 1) a b
                 * mget (get_transition_matrix_axis 1) j b))
       + mget (zeros 3 3) i j).
Proof.
  apply (C3_predict_step 3 2); try reflexivity; try lia;
    (split; [reflexivity | repeat constructor]).
Defined.

(** C2.  One Update step on conformable operands whose innovation covariance
    S = H P H^T + R is invertible succeeds; with S_inv the inverse of S and
    K = P H^T S_inv the Kalman gain (an n x m matrix), it yields
    x' = x + K (z - H x) and the Joseph form
    P' = (I - K H) P (I - K H)^T + K R K^T. *)
Theorem C2_update_step n m H P R x z :
  (0 < n)%nat -> (0 < m)%nat ->
  is_matrix m n H -> is_matrix n n P -> is_matrix m m R ->
  length x = n -> length z = m ->
  invertible m (innovation_cov H P R) ->
  exists S_inv K,
    inverse_of m (innovation_cov H P R) S_inv /\
    K = kalman_gain H P S_inv /\ is_matrix n m K /\
    update H z R {| x_est := x; p_est := P |} =
    Ok {| x_est := vadd x (matvec K (vsub z (matvec H x)));
          p_est := joseph_form n K H P R |}.
Proof.
  intros Hn Hm HH HP HR Hx Hz [S_inv HI].
  exists S_inv, (kalman_gain H P S_inv).
  split; [exact HI|]. split; [reflexivity|]. split.
  - apply kalman_gain_shape; auto. apply HI.
  - apply (update_invertible n m); auto.
Qed.

Lemma C2_witness :
  exists S_inv K,
    inverse_of 1 (innovation_cov [[1]] [[1]] [[1]]) S_inv /\
    K = kalman_gain [[1]] [[1]] S_inv /\ is_matrix 1 1 K /\
    update [[1]] [1] [[1]] {| x_est := [0]; p_est := [[1]] |} =
    Ok {| x_est := vadd [0] (matvec K (vsub [1] (matvec [[1]] [0])));
          p_est := joseph_form 1 K [[1]] [[1]] [[1]] |}.
Proof.
  apply (C2_update_step 1 1); try reflexivity; try lia;
    try apply is_matrix_1x1.
  exists [[/ (1 + 1)]].
  replace (innovation_cov [[1]] [[1]] [[1]]) with [[1 + 1]] by array_eq.
  apply inverse_1x1. discriminate.
Defined.







(** ** Worked examples *)

(** [make_nd] on two axes, and on none: the loops do not run and [base]
    is still [None]. *)
Example make_nd_two_axes :
  make_nd get_control_matrix_axis 2 1 =
  Some [ [1; half * 1 * 1; 0; 0];
         [1; 1; 0; 0];
         [0; 1; 0; 0];
         [0; 0; 1; half * 1 * 1];
         [0; 0; 1; 1];
         [0; 0; 0; 1] ].
Proof. reflexivity. Qed.

Example make_nd_no_axis : make_nd get_control_matrix_axis 0 1 = None.
Proof. reflexivity. Qed.

(** The inverse of [[2, 1], [1, 1]] is [[1, -1], [-1, 2]]; [[2, 1], [4, 2]]
    is singular. *)
Example linalg_inv_2x2 :
  match linalg_inv [[1 + 1; 1]; [1; 1]] with
  | Ok B => map (map this) B = [[1; -1]; [-1; 2]]%Q
  | Raise _ => False
  end.
Proof. vm_compute. reflexivity. Qed.

Example linalg_inv_2x2_singular :
  linalg_inv [[1 + 1; 1]; [dec 4 1; 1 + 1]] = Raise LinAlgError.
Proof.
  destruct (linalg_inv _) as [B|[]] eqn:E; [|reflexivity].
  vm_compute in E. discriminate.
Qed.

(** ** The expanded matrices, written out *)

Lemma get_transition_matrix_eq t :
  get_transition_matrix t =
  Some [ [1; t; half * t * t; 0; 0; 0; 0; 0; 0];
         [0; 1; t; 0; 0; 0; 0; 0; 0];
         [0; 0; 1; 0; 0; 0; 0; 0; 0];
         [0; 0; 0; 1; t; half * t * t; 0; 0; 0];
         [0; 0; 0; 0; 1; t; 0; 0; 0];
         [0; 0; 0; 0; 0; 1; 0; 0; 0];
         [0; 0; 0; 0; 0; 0; 1; t; half * t * t];
         [0; 0; 0; 0; 0; 0; 0; 1; t];
         [0; 0; 0; 0; 0; 0; 0; 0; 1] ].
Proof. reflexivity. Qed.

Lemma get_control_matrix_eq t :
  get_control_matrix t =
  Some [ [t; half * t * t; 0; 0; 0; 0];
         [1; t; 0; 0; 0; 0];
         [0; 1; 0; 0; 0; 0];
         [0; 0; t; half * t * t; 0; 0];
         [0; 0; 1; t; 0; 0];
         [0; 0; 0; 1; 0; 0];
         [0; 0; 0; 0; t; half * t * t];
         [0; 0; 0; 0; 1; t];
         [0; 0; 0; 0; 0; 1] ].
Proof. reflexivity. Qed.

Lemma transition_at_zero : get_transition_matrix 0 = Some (eye 9).
Proof. rewrite get_transition_matrix_eq. array_eq. Qed.

Lemma process_noise_zero_std (t : Qc) :
  get_process_noise t 0 = Some (zeros 9 9).
Proof.
  unfold get_process_noise. rewrite get_control_matrix_eq. array_eq.
Qed.

(** C7.  With [accel_std = 0] the process noise is the zero matrix, entry
    for entry, whatever the time step: it has nine rows of nine entries and
    each of them is 0. *)
Theorem C7_zero_accel_std_zero_noise (t : Qc) :
  exists noise,
    get_process_noise t 0 = Some noise /\ is_matrix 9 9 noise /\
    forall i j, mget noise i j = 0.
Proof.
  exists (zeros 9 9). split; [apply process_noise_zero_std|].
  split; [apply zeros_shape | apply mget_zeros].
Qed.


(** C6, as the specification states it, fails at a zero time step: the
    control matrix keeps its constant entries, and with [accel_std = 1] the
    process noise keeps the squares of those entries. *)
Lemma C6_counterexample :
  get_control_matrix 0 <> Some (zeros 9 6) /\
  get_process_noise 0 1 <> Some (zeros 9 9).
Proof.
  split; intros E.
  - assert (E' := f_equal (entry_of 1 0) E). discriminate.
  - assert (E' := f_equal (entry_of 1 1) E). vm_compute in E'.
    discriminate.
Qed.

(** C6 (amended).  At a zero time step the transition matrix, per axis and
    expanded, is the identity; the control matrix is the expansion of the
    constant block [[0, 0], [1, 0], [0, 1]]; the process noise is the expansion of
    [accel_std^2 * diag(0, 1, 1)], which is the zero matrix exactly when
    [accel_std = 0]. *)
Theorem C6_zero_time_step :
  get_transition_matrix_axis 0 = eye 3 /\
  get_transition_matrix 0 = Some (eye 9) /\
  get_control_matrix 0 =
    make_nd (fun _ : unit => [[0; 0]; [1; 0]; [0; 1]]) 3 tt /\
  forall accel_std : Qc,
    get_process_noise 0 accel_std =
      make_nd (fun _ : unit =>
                 [[0; 0; 0]; [0; accel_std ^ 2; 0]; [0; 0; accel_std ^ 2]])
        3 tt /\
    (get_process_noise 0 accel_std = Some (zeros 9 9) <-> accel_std = 0).
Proof.
  split; [array_eq|]. split; [exact transition_at_zero|]. split.
  - rewrite get_control_matrix_eq. array_eq.
  - intros s.
    assert (E : get_process_noise 0 s =
                make_nd (fun _ : unit =>
                           [[0; 0; 0]; [0; s ^ 2; 0]; [0; 0; s ^ 2]]) 3 tt).
    { unfold get_process_noise. rewrite get_control_matrix_eq. array_eq. }
    split; [exact E|]. split.
    + rewrite E. intros Hz.
      assert (E' := f_equal (entry_of 1 1) Hz).
      cbv - [Qcplus Qcmult Q2Qc] in E'.
      destruct (Qcmult_integral _ _ E') as [H0|H0]; [exact H0|].
      destruct (Qcmult_integral _ _ H0) as [H1|H1]; [exact H1|discriminate].
    + intros ->. apply process_noise_zero_std.
Qed.

(** A matrix is invertible as soon as the inversion returns. *)
Lemma invertible_by_inversion n A B :
  (0 < n)%nat -> is_matrix n n A -> linalg_inv A = Ok B -> invertible n A.
Proof. intros Hn HA E. exists B. apply linalg_inv_sound; auto. Qed.

Lemma is_matrix_2x2 (a b c d : Qc) : is_matrix 2 2 [[a; b]; [c; d]].
Proof. split; [reflexivity|]. repeat constructor. Qed.

(** C8, as the specification states it, fails: a Predict with a
    non-symmetric [Q] and an Update with a non-symmetric [R] both go
    through, and the covariance after that Predict is itself not
    symmetric. *)
Lemma C8_counterexample :
  let e := {| x_est := [0; 0]; p_est := eye 2 |} in
  ~ symmetric 2 [[0; 1]; [0; 0]] /\
  (exists e', apply_call (Predict (eye 2) [[0]; [0]] [[0; 1]; [0; 0]] [0]) e
              = Ok e' /\ ~ symmetric 2 (p_est e')) /\
  ~ symmetric 2 [[1; 1]; [0; 1]] /\
  (exists e', apply_call (Update (eye 2) [0; 0] [[1; 1]; [0; 1]]) e = Ok e').
Proof.
  intros e.
  assert (N : forall A, mget A 0 1 <> mget A 1 0 -> ~ symmetric 2 A).
  { intros A HA HS. apply HA. apply HS; lia. }
  split; [apply N; discriminate|]. split.
  - eexists. split; [reflexivity|]. apply N. vm_compute. discriminate.
  - split; [apply N; discriminate|].
    destruct (apply_call (Update (eye 2) [0; 0] [[1; 1]; [0; 1]]) e)
      as [e'|ex] eqn:E; [exists e'; reflexivity|].
    vm_compute in E. discriminate.
Qed.

(** C8 (amended).  Predict and Update make no symmetry check: with
    conformable operands, and an invertible innovation covariance for the
    Update, the call succeeds whether or not [Q] or [R] is symmetric, and
    uses the matrix as supplied: P' = F P F^T + Q entry for entry, and the
    Joseph form with the given [R]. *)
Theorem C8_no_symmetry_check n c m F G Q u H z R x P :
  (0 < n)%nat -> (0 < m)%nat ->
  is_matrix n n F -> is_matrix n c G -> is_matrix n n Q -> is_matrix n n P ->
  length x = n -> length u = c ->
  is_matrix m n H -> is_matrix m m R -> length z = m ->
  invertible m (innovation_cov H P R) ->
  (exists e',
     apply_call (Predict F G Q u) {| x_est := x; p_est := P |} = Ok e' /\
     forall i j, (i < n)%nat -> (j < n)%nat ->
       mget (p_est e') i j =
       sumq n (fun a => sumq n (fun b => mget F i a * mget P a b * mget F j b))
       + mget Q i j) /\
  (exists S_inv,
     inverse_of m (innovation_cov H P R) S_inv /\
     apply_call (Update H z R) {| x_est := x; p_est := P |} =
     Ok {| x_est := vadd x (matvec (kalman_gain H P S_inv)
                              (vsub z (matvec H x)));
           p_est := joseph_form n (kalman_gain H P S_inv) H P R |}).
Proof.
  intros Hn Hm HF HG HQ HP Hx Hu HH HR Hz [S_inv HI]. split.
  - eexists. split; [reflexivity|].
    intros i j Hi Hj. apply predict_cov_entries; auto.
  - exists S_inv. split; [exact HI|]. apply (update_invertible n m); auto.
Qed.

Lemma C8_witness :
  (exists e',
     apply_call (Predict (eye 2) [[0]; [0]] [[0; 1]; [0; 0]] [0])
       {| x_est := [0; 0]; p_est := eye 2 |} = Ok e' /\
     forall i j, (i < 2)%nat -> (j < 2)%nat ->
       mget (p_est e') i j =
       sumq 2 (fun a => sumq 2 (fun b =>
                 mget (eye 2) i a * mget (eye 2) a b * mget (eye 2) j b))
       + mget [[0; 1]; [0; 0]] i j) /\
  (exists S_inv,
     inverse_of 2 (innovation_cov (eye 2) (eye 2) [[1; 1]; [0; 1]]) S_inv /\
     apply_call (Update (eye 2) [0; 0] [[1; 1]; [0; 1]])
       {| x_est := [0; 0]; p_est := eye 2 |} =
     Ok {| x_est := vadd [0; 0]
                      (matvec (kalman_gain (eye 2) (eye 2) S_inv)
                         (vsub [0; 0] (matvec (eye 2) [0; 0])));
           p_est := joseph_form 2 (kalman_gain (eye 2) (eye 2) S_inv)
                      (eye 2) (eye 2) [[1; 1]; [0; 1]] |}).
Proof.
  apply (C8_no_symmetry_check 2 1 2); try reflexivity; try lia;
    try apply is_matrix_2x2.
  - split; [reflexivity|]. repeat constructor.
  - destruct (linalg_inv (innovation_cov (eye 2) (eye 2) [[1; 1]; [0; 1]]))
      as [B|ex] eqn:E.
    + apply (invertible_by_inversion 2 _ B); [lia | | exact E].
      apply (innovation_cov_shape 2 2); try lia; apply is_matrix_2x2.
    + vm_compute in E. discriminate.
Defined.

(** C9.  The main program's setting (three axes, a time step of 0.01,
    [accel_var = 0.02], start at (0, 0, 0.6) with a position standard
    deviation of 0.2): after one Predict with a zero control and one Update
    with the measurement (0, 0, 0.62) of covariance diag(1e-4, 1e-4, 1e-4),
    the step succeeds and the z position, entry 6 of the state, lies
    strictly between 0.6 and 0.62. *)
Theorem C9_scenario_z_between :
  exists e,
    first_iteration
      {| control := [0; 0; 0; 0; 0; 0];
         meas := [0; 0; dec 62 100];
         var := [ [dec 1 10000; 0; 0];
                  [0; dec 1 10000; 0];
                  [0; 0; dec 1 10000] ] |} = Some (Ok e) /\
    dec 6 10 < nth 6 (x_est e) 0 /\ nth 6 (x_est e) 0 < dec 62 100.
Proof.
  match goal with
  | |- exists e, ?run = _ /\ _ => destruct run as [[e|ex]|] eqn:E
  end.
  - exists e. split; [reflexivity|].
    vm_compute in E. injection E as <-.
    split; reflexivity.
  - vm_compute in E. discriminate.
  - vm_compute in E. discriminate.
Qed.

(** * Further properties of the script *)

(** ** More algebra of the array operations *)












Lemma vadd_zero_r n v : length v = n -> vadd v (repeat 0 n) = v.
Proof.
  intros Hv. apply (vec_ext n); auto.
  - apply vadd_length; auto using repeat_length.
  - intros i Hi. rewrite (nth_vadd n v _ i Hv (repeat_length _ _) Hi).
    rewrite nth_repeat. ring.
Qed.

Lemma vsub_diag n v : length v = n -> vsub v v = repeat 0 n.
Proof.
  intros Hv. apply (vec_ext n).
  - apply vsub_length; auto.
  - apply repeat_length.
  - intros i Hi. rewrite (nth_vsub n v v i Hv Hv Hi), nth_repeat. ring.
Qed.





Lemma matvec_smul A c v : matvec (smul c A) v = vscale c (matvec A v).
Proof.
  unfold matvec, smul. unfold vscale at 2. rewrite !map_map.
  apply map_ext. intros row. apply dot_vscale.
Qed.


Lemma dot_self_nonneg v : 0 <= dot v v.
Proof.
  induction v as [|x v IH]; simpl; [apply Qcle_refl|].
  rewrite <- (Qcplus_0_l 0) at 1.
  apply Qcplus_le_compat; [apply Qc_square_nonneg | exact IH].
Qed.

(** ** The gain and the short form of the covariance update *)

Section Gain.

Variables (n m : nat) (H P R S_inv : matrix).
Hypothesis Hn : (0 < n)%nat.
Hypothesis Hm : (0 < m)%nat.
Hypothesis HH : is_matrix m n H.
Hypothesis HP : is_matrix n n P.
Hypothesis HR : is_matrix m m R.
Hypothesis HI : inverse_of m (innovation_cov H P R) S_inv.

Let K := kalman_gain H P S_inv.
Let X := matmul P (transpose H).



Lemma gain_K_shape : is_matrix n m K.
Proof. apply kalman_gain_shape; auto. apply HI. Qed.






End Gain.






(** ** Properties of the update (lines 108-111) *)

(** X10.  When the measurement equals the predicted observation [H x], an
    Update with an invertible innovation covariance leaves the state where
    it was. *)
Theorem X10_zero_innovation_keeps_state n m H P R x :
  (0 < n)%nat -> (0 < m)%nat ->
  is_matrix m n H -> is_matrix n n P -> is_matrix m m R -> length x = n ->
  invertible m (innovation_cov H P R) ->
  exists e',
    update H (matvec H x) R {| x_est := x; p_est := P |} = Ok e' /\
    x_est e' = x.
Proof.
  intros Hn Hm HH HP HR Hx [S_inv HI].
  rewrite (update_invertible n m H P R x _ S_inv Hn Hm HH HP HR HI).
  eexists. split; [reflexivity|]. cbn [x_est].
  rewrite (vsub_diag m _ (matvec_length m H x (proj1 HH))).
  rewrite (matvec_zero n m _ (gain_K_shape n m H P R S_inv Hn Hm HH HP HI)).
  apply vadd_zero_r; auto.
Qed.

Lemma X10_witness :
  exists e',
    update [[1]] (matvec [[1]] [dec 6 10]) [[1]]
      {| x_est := [dec 6 10]; p_est := [[1]] |} = Ok e' /\
    x_est e' = [dec 6 10].
Proof.
  apply (X10_zero_innovation_keeps_state 1 1); try reflexivity; try lia;
    try apply is_matrix_1x1.
  exists [[/ (1 + 1)]].
  replace (innovation_cov [[1]] [[1]] [[1]]) with [[1 + 1]] by array_eq.
  apply inverse_1x1. discriminate.
Defined.







(** ** The main loop (lines 102-116) *)












(** ** Properties of [make_nd] (lines 18-32) *)

(** X1.  [make_nd] returns [None] exactly when [ndim] is 0 (the loops do
    not run and [base] keeps its initial value), and with [ndim = 1] it
    returns the generator's own matrix. *)
Theorem X1_make_nd_none_and_single_axis {X : Type} (gen : X -> matrix)
  (args : X) :
  (forall ndim, make_nd gen ndim args = None <-> ndim = O) /\
  make_nd gen 1 args = Some (gen args).
Proof.
  split.
  - intros [|ndim]; split; intros E; try reflexivity.
    + rewrite make_nd_closed in E. discriminate.
    + discriminate.
  - rewrite make_nd_closed. simpl. unfold make_nd_col. simpl.
    unfold make_nd_block. simpl. rewrite app_nil_r. reflexivity.
Qed.

Lemma sumq_app a b f :
  sumq (a + b) f = sumq a f + sumq b (fun j => f (a + j)%nat).
Proof.
  induction b as [|b IH].
  - rewrite Nat.add_0_r. simpl. ring.
  - rewrite Nat.add_succ_r. simpl. rewrite IH. ring.
Qed.

(** A sum over [N] blocks of length [k]. *)
Lemma sumq_blocks N k f :
  sumq (N * k) f = sumq N (fun b => sumq k (fun j => f (b * k + j)%nat)).
Proof.
  induction N as [|N IH]; [reflexivity|].
  rewrite Nat.mul_succ_l, sumq_app, IH. reflexivity.
Qed.

Lemma block_index b k j :
  (j < k)%nat -> ((b * k + j) / k = b /\ (b * k + j) mod k = j)%nat.
Proof.
  intros Hj. split.
  - symmetry. apply (Nat.div_unique (b * k + j) k b j Hj). lia.
  - symmetry. apply (Nat.mod_unique (b * k + j) k b j Hj). lia.
Qed.

(** X2.  Expansion commutes with the matrix product: for generators whose
    outputs are r x k and k x c, the product of the two expanded matrices
    is the expansion of the product of the two outputs. *)
Theorem X2_make_nd_matmul {X : Type} (gA gB : X -> matrix) (ndim : nat)
  (args : X) (r k c : nat) :
  is_matrix r k (gA args) -> is_matrix k c (gB args) ->
  (0 < k)%nat -> (1 <= ndim)%nat ->
  exists MA MB,
    make_nd gA ndim args = Some MA /\
    make_nd gB ndim args = Some MB /\
    make_nd (fun a => matmul (gA a) (gB a)) ndim args
      = Some (matmul MA MB).
Proof.
  intros HA HB Hk Hn.
  destruct (make_nd_entries gA ndim args r k HA Hn) as (MA & EA & SA & FA).
  destruct (make_nd_entries gB ndim args k c HB Hn) as (MB & EB & SB & FB).
  assert (HAB := matmul_shape r k c _ _ HA HB Hk).
  destruct (make_nd_entries (fun a => matmul (gA a) (gB a)) ndim args r c
              HAB Hn) as (MC & EC & SC & FC).
  exists MA, MB. split; [exact EA|]. split; [exact EB|].
  rewrite EC. f_equal.
  assert (HNk : (0 < ndim * k)%nat) by nia.
  apply (mat_ext (ndim * r) (ndim * c)); auto.
  - apply (matmul_shape _ (ndim * k)); auto.
  - intros p q Hp Hq.
    assert (Hr : r <> O) by (intros ->; lia).
    assert (Hc : c <> O) by (intros ->; lia).
    assert (Hpr : (p / r < ndim)%nat)
      by (apply Nat.Div0.div_lt_upper_bound; lia).
    assert (Hpm := Nat.mod_upper_bound p r Hr).
    assert (Hqm := Nat.mod_upper_bound q c Hc).
    rewrite (FC p q Hp Hq).
    rewrite (mget_matmul _ (ndim * k) _ MA MB p q SA SB HNk Hp Hq).
    rewrite sumq_blocks.
    rewrite (sumq_ext ndim _
               (fun b => (if Nat.eqb (p / r) b then 1 else 0) *
                         (if Nat.eqb (q / c) b
                          then mget (matmul (gA args) (gB args))
                                 (p mod r) (q mod c)
                          else 0))).
    + rewrite (sumq_delta_l ndim (p / r)
                 (fun b => if Nat.eqb (q / c) b
                           then mget (matmul (gA args) (gB args))
                                  (p mod r) (q mod c)
                           else 0) Hpr).
      reflexivity.
    + intros b Hb.
      rewrite (sumq_ext k _
                 (fun j => (if Nat.eqb (p / r) b then 1 else 0) *
                           ((if Nat.eqb (q / c) b then 1 else 0) *
                            (mget (gA args) (p mod r) j *
                             mget (gB args) j (q mod c))))).
      * rewrite !sumq_mul_l.
        rewrite (mget_matmul r k c _ _ _ _ HA HB Hk Hpm Hqm).
        destruct (Nat.eqb (q / c) b); ring.
      * intros j Hj. destruct (block_index b k j Hj) as [Ed Em].
        assert (Hl : (b * k + j < ndim * k)%nat) by nia.
        rewrite (FA p _ Hp Hl), (FB _ q Hl Hq), Ed, Em.
        rewrite (Nat.eqb_sym b (p / r)).
        destruct (Nat.eqb (p / r) b), (Nat.eqb (q / c) b); ring.
Qed.

Lemma X2_witness :
  exists MA MB,
    make_nd get_transition_matrix_axis 2 1 = Some MA /\
    make_nd get_control_matrix_axis 2 1 = Some MB /\
    make_nd (fun a => matmul (get_transition_matrix_axis a)
                        (get_control_matrix_axis a)) 2 1
      = Some (matmul MA MB).
Proof.
  apply (X2_make_nd_matmul get_transition_matrix_axis
           get_control_matrix_axis 2 1 3 3 2); try lia;
    (split; [reflexivity | repeat constructor]).
Defined.

(** X3.  Expansion commutes with transposition: the transpose of the
    expanded matrix is the expansion of the transposed output. *)
Theorem X3_make_nd_transpose {X : Type} (gen : X -> matrix) (ndim : nat)
  (args : X) (r c : nat) :
  is_matrix r c (gen args) -> (0 < r)%nat -> (1 <= ndim)%nat ->
  exists M,
    make_nd gen ndim args = Some M /\
    make_nd (fun a => transpose (gen a)) ndim args = Some (transpose M).
Proof.
  intros HA Hr Hn.
  destruct (make_nd_entries gen ndim args r c HA Hn) as (M & EM & SM & FM).
  assert (HT := transpose_shape r c _ HA Hr).
  destruct (make_nd_entries (fun a => transpose (gen a)) ndim args c r
              HT Hn) as (MT & ET & ST & FT).
  exists M. split; [exact EM|]. rewrite ET. f_equal.
  assert (HNr : (0 < ndim * r)%nat) by nia.
  apply (mat_ext (ndim * c) (ndim * r)); auto.
  - apply transpose_shape; auto.
  - intros q p Hq Hp.
    assert (Hc : c <> O) by (intros ->; lia).
    rewrite (mget_transpose _ _ M q p SM HNr Hq Hp).
    rewrite (FT q p Hq Hp), (FM p q Hp Hq).
    rewrite (Nat.eqb_sym (p / r) (q / c)).
    destruct (Nat.eqb (q / c) (p / r)); [|reflexivity].
    apply (mget_transpose r c _ _ _ HA Hr).
    + apply Nat.mod_upper_bound; auto.
    + apply Nat.mod_upper_bound; lia.
Qed.

Lemma X3_witness :
  exists M,
    make_nd get_control_matrix_axis 3 1 = Some M /\
    make_nd (fun a => transpose (get_control_matrix_axis a)) 3 1
      = Some (transpose M).
Proof.
  apply (X3_make_nd_transpose get_control_matrix_axis 3 1 3 2); try lia.
  split; [reflexivity | repeat constructor].
Defined.

(** ** Properties of the generated matrices (lines 35-76) *)

(** [c * G @ G^T] is a covariance for every matrix [G] and every [c >= 0]. *)
Lemma gram_covariance n k G c :
  (0 < n)%nat -> (0 < k)%nat -> is_matrix n k G -> 0 <= c ->
  covariance n (matmul (smul c G) (transpose G)).
Proof.
  intros Hn Hk HG Hc.
  assert (HS := smul_shape n k c G HG).
  assert (HT := transpose_shape n k G HG Hn).
  assert (HM := matmul_shape n k n _ _ HS HT Hk).
  assert (E : forall i j, (i < n)%nat -> (j < n)%nat ->
            mget (matmul (smul c G) (transpose G)) i j =
            sumq k (fun l => c * (mget G i l * mget G j l))).
  { intros i j Hi Hj.
    rewrite (mget_matmul n k n _ _ i j HS HT Hk Hi Hj).
    apply sumq_ext. intros l Hl.
    rewrite (mget_smul n k c G i l HG Hi Hl).
    rewrite (mget_transpose n k G l j HG Hn Hl Hj). ring. }
  split; [exact HM|]. split.
  - intros i j Hi Hj. rewrite (E i j Hi Hj), (E j i Hj Hi).
    apply sumq_ext. intros; ring.
  - intros v Hv.
    assert (Lw := matvec_length k (transpose G) v (proj1 HT)).
    rewrite (matvec_matmul n k n _ _ v HS HT Hk Hv).
    rewrite matvec_smul, dot_vscale_r.
    rewrite (dot_matvec_adjoint n k G v _ HG Hn Hv Lw).
    rewrite <- (Qcmult_0_l (dot (matvec (transpose G) v)
                              (matvec (transpose G) v))).
    apply Qcmult_le_compat_r; [exact Hc | apply dot_self_nonneg].
Qed.

Lemma Qc_pow2_nonneg (s : Qc) : 0 <= s ^ 2.
Proof.
  replace (s ^ 2) with (s * s) by (simpl; ring). apply Qc_square_nonneg.
Qed.





Lemma starting_uncertainty_covariance (std : Qc) :
  exists p0,
    get_starting_uncertainty std = Some p0 /\ covariance 9 p0 /\
    matmul (matmul get_observation_matrix p0)
      (transpose get_observation_matrix) = smul (std ^ 2) (eye 3).
Proof.
  exists (matmul (smul (std ^ 2) (transpose get_observation_matrix))
            (transpose (transpose get_observation_matrix))).
  split; [array_eq|]. split.
  - apply (gram_covariance 9 3); try lia.
    + split; [reflexivity | repeat constructor].
    + apply Qc_pow2_nonneg.
  - array_eq.
Qed.

(** X6.  For every position standard deviation the starting uncertainty
    is a 9 x 9 covariance, and what the sensors see of it, [H P0 H^T], is the
    position variance on each axis, uncorrelated. *)
Theorem X6_starting_uncertainty_is_covariance (std : Qc) :
  exists p0,
    get_starting_uncertainty std = Some p0 /\ covariance 9 p0 /\
    matmul (matmul get_observation_matrix p0)
      (transpose get_observation_matrix) = smul (std ^ 2) (eye 3).
Proof. apply starting_uncertainty_covariance. Qed.

(** X7.  The observation matrix reads the three positions off a state:
    [H x = (x[0], x[3], x[6])] for every 9-vector; applied to the starting
    state it gives back the initial position; and [H H^T] is the
    identity. *)
Theorem X7_observation_reads_positions (x : vector) (p0 p1 p2 : Qc) :
  length x = 9%nat ->
  matvec get_observation_matrix x = [nth 0 x 0; nth 3 x 0; nth 6 x 0] /\
  matvec get_observation_matrix (get_starting_position (p0, p1, p2))
    = [p0; p1; p2] /\
  matmul get_observation_matrix (transpose get_observation_matrix) = eye 3.
Proof.
  intros Hx. split; [|split; array_eq].
  do 10 (destruct x as [|? x]; try discriminate). array_eq.
Qed.

Lemma X7_witness :
  matvec get_observation_matrix (get_starting_position (0, 0, dec 6 10))
    = [nth 0 (get_starting_position (0, 0, dec 6 10)) 0;
       nth 3 (get_starting_position (0, 0, dec 6 10)) 0;
       nth 6 (get_starting_position (0, 0, dec 6 10)) 0] /\
  matvec get_observation_matrix (get_starting_position (0, 0, dec 6 10))
    = [0; 0; dec 6 10] /\
  matmul get_observation_matrix (transpose get_observation_matrix) = eye 3.
Proof.
  apply (X7_observation_reads_positions
           (get_starting_position (0, 0, dec 6 10)) 0 0 (dec 6 10)).
  reflexivity.
Defined.




(** ** Predictions compose (lines 106-107) *)





(** ** The main program as configured (lines 78-116) *)




